(** * update_locations.py: GEDCOM location records merged with YAML data

    A shallow embedding of [src/update_locations.py] and the properties
    of its parser, merger, serializer and orchestrator.

    Conventions of the embedding.
    - A Python [str] is a [list ascii]; a character is a code point below
      256 (the Latin-1 range), so [isspace] and the digits accepted by
      [int()] are Python's restricted to that range.
    - A Python [int] is a [Z].  The interpreter's limit on the number of
      digits converted by [int()] and [str()] is not modelled.
    - A node (a Python dict with the keys level, tag, value, xref_id,
      children) is a value of the inductive type [node].  A reference to
      a node that lives inside [all_records] is the path of indices that
      leads to it: every node is owned by exactly one list, so the path
      names the object, and a mutation through the reference is an update
      of [all_records] at that path.
    - An exception that would leave the function is a [Raise] result. *)

From Stdlib Require Import String Ascii.
From Stdlib Require Import List ZArith Lia Bool Arith.
From Stdlib Require Import DecimalZ DecimalPos.
Import ListNotations.
Local Open Scope Z_scope.

(* ================================================================== *)
(** ** Python strings *)

Module Py.

Definition str := list ascii.

(** A string literal. *)
Definition lit (s : string) : str := list_ascii_of_string s.

Definition chr_eqb (a b : ascii) : bool := Ascii.eqb a b.

Fixpoint eqb (a b : str) : bool :=
  match a, b with
  | [], [] => true
  | x :: a', y :: b' => chr_eqb x y && eqb a' b'
  | _, _ => false
  end.

Definition SP : ascii := " "%char.
Definition AT : ascii := "@"%char.
Definition LF : ascii := ascii_of_nat 10.
Definition CR : ascii := ascii_of_nat 13.

(** [c.isspace()] for a code point below 256. *)
Definition isspace (c : ascii) : bool :=
  let n := nat_of_ascii c in
  (((9 <=? n) && (n <=? 13)) || ((28 <=? n) && (n <=? 32))
   || (n =? 133) || (n =? 160))%nat.

Fixpoint lstrip_by (f : ascii -> bool) (s : str) : str :=
  match s with
  | [] => []
  | c :: s' => if f c then lstrip_by f s' else s
  end.

Definition strip_by (f : ascii -> bool) (s : str) : str :=
  rev (lstrip_by f (rev (lstrip_by f s))).

(** [s.strip()] *)
Definition strip (s : str) : str := strip_by isspace s.

(** [s.strip(c)] for a one-character argument *)
Definition strip_chr (c : ascii) (s : str) : str := strip_by (chr_eqb c) s.

(** [s.partition(' ')] when the separator occurs: the text before the
    first space and the text after it. *)
Fixpoint cut (s : str) : option (str * str) :=
  match s with
  | [] => None
  | c :: s' =>
      if chr_eqb c SP then Some ([], s')
      else match cut s' with
           | Some (a, b) => Some (c :: a, b)
           | None => None
           end
  end.

(** [s.split(' ', maxsplit)] *)
Fixpoint split (maxsplit : nat) (s : str) : list str :=
  match maxsplit with
  | O => [s]
  | S k => match cut s with
           | None => [s]
           | Some (a, b) => a :: split k b
           end
  end.

(** [s.startswith(c)] and [s.endswith(c)] for a one-character argument *)
Definition startswith (s : str) (c : ascii) : bool :=
  match s with
  | x :: _ => chr_eqb x c
  | [] => false
  end.

Definition endswith (s : str) (c : ascii) : bool := startswith (rev s) c.

(** [sep.join(parts)] *)
Fixpoint join (sep : str) (parts : list str) : str :=
  match parts with
  | [] => []
  | [p] => p
  | p :: ps => p ++ sep ++ join sep ps
  end.

(** *** [int(s)] *)

Definition digit_val (c : ascii) : option Z :=
  let n := nat_of_ascii c in
  if ((48 <=? n) && (n <=? 57))%nat then Some (Z.of_nat n - 48) else None.

Definition UNDERSCORE : ascii := "_"%char.

(** The digits of a literal: at least one digit, single underscores
    allowed between digits only.  [after_digit] tells whether the
    previous character was a digit. *)
Fixpoint int_digits (acc : Z) (after_digit : bool) (s : str) : option Z :=
  match s with
  | [] => if after_digit then Some acc else None
  | c :: s' =>
      match digit_val c with
      | Some d => int_digits (10 * acc + d) true s'
      | None =>
          if chr_eqb c UNDERSCORE && after_digit
          then int_digits acc false s'
          else None
      end
  end.

(** [int(s)]: [None] stands for ValueError. *)
Definition int (s : str) : option Z :=
  match strip s with
  | c :: ds =>
      if chr_eqb c "+"%char then int_digits 0 false ds
      else if chr_eqb c "-"%char then option_map Z.opp (int_digits 0 false ds)
      else int_digits 0 false (c :: ds)
  | [] => None
  end.

(** *** [str(n)] *)

Fixpoint str_of_uint (d : Decimal.uint) : str :=
  match d with
  | Decimal.Nil => []
  | Decimal.D0 d => "0"%char :: str_of_uint d
  | Decimal.D1 d => "1"%char :: str_of_uint d
  | Decimal.D2 d => "2"%char :: str_of_uint d
  | Decimal.D3 d => "3"%char :: str_of_uint d
  | Decimal.D4 d => "4"%char :: str_of_uint d
  | Decimal.D5 d => "5"%char :: str_of_uint d
  | Decimal.D6 d => "6"%char :: str_of_uint d
  | Decimal.D7 d => "7"%char :: str_of_uint d
  | Decimal.D8 d => "8"%char :: str_of_uint d
  | Decimal.D9 d => "9"%char :: str_of_uint d
  end.

Definition str_of_int (n : Z) : str :=
  match Z.to_int n with
  | Decimal.Pos d => str_of_uint d
  | Decimal.Neg d => "-"%char :: str_of_uint d
  end.

(** *** dict with string keys, in insertion order *)

Definition dict (V : Type) := list (str * V).

Fixpoint dict_get {V} (d : dict V) (k : str) : option V :=
  match d with
  | [] => None
  | (k', v) :: d' => if eqb k' k then Some v else dict_get d' k
  end.

(** [d[k] = v]: overwrite in place, or append a new key. *)
Fixpoint dict_set {V} (d : dict V) (k : str) (v : V) : dict V :=
  match d with
  | [] => [(k, v)]
  | (k', v') :: d' =>
      if eqb k' k then (k', v) :: d' else (k', v') :: dict_set d' k v
  end.

End Py.

Import Py.

(* ================================================================== *)
(** ** Results and exceptions *)

Inductive exn := IndexError.

Inductive result (A : Type) :=
| Ok (a : A)
| Raise (e : exn).
Arguments Ok {A} a.
Arguments Raise {A} e.

Definition bind {A B} (r : result A) (k : A -> result B) : result B :=
  match r with
  | Ok a => k a
  | Raise e => Raise e
  end.

Notation "x <- r ;; k" := (bind r (fun x => k))
  (at level 61, r at next level, right associativity).

(** [xs[i]] *)
Definition getitem {A} (xs : list A) (i : nat) : result A :=
  match nth_error xs i with
  | Some x => Ok x
  | None => Raise IndexError
  end.

(* ================================================================== *)
(** ** The record node *)

Unset Elimination Schemes.
Inductive node := Node {
  level : Z;
  tag : str;
  value : str;
  xref_id : option str;
  children : list node
}.
Set Elimination Schemes.

Definition with_children (n : node) (cs : list node) : node :=
  Node (level n) (tag n) (value n) (xref_id n) cs.

(** Truth value of [xref_id]: [None] and the empty string are false. *)
Definition truthy (x : option str) : bool :=
  match x with
  | Some (_ :: _) => true
  | _ => false
  end.

Definition NAME : str := Eval cbv in lit "NAME".
Definition ABBR : str := Eval cbv in lit "ABBR".
Definition DATE : str := Eval cbv in lit "DATE".
Definition TIME : str := Eval cbv in lit "TIME".
Definition CHAN : str := Eval cbv in lit "CHAN".
Definition TRLR : str := Eval cbv in lit "TRLR".
Definition T_UID : str := Eval cbv in lit "_UID".
Definition T_LOC : str := Eval cbv in lit "_LOC".

(* ================================================================== *)
(** ** References into the forest *)

(** A path: the index of a top-level record, then child indices. *)
Definition path := list nat.

Fixpoint alter {A} (f : A -> A) (i : nat) (xs : list A) : list A :=
  match xs, i with
  | [], _ => []
  | x :: xs', O => f x :: xs'
  | x :: xs', S j => x :: alter f j xs'
  end.

(** The list a path designates: the forest itself for the empty path,
    else the children of the node at the path. *)
Fixpoint kids (p : path) (rs : list node) : list node :=
  match p with
  | [] => rs
  | i :: p' => match nth_error rs i with
               | Some n => kids p' (children n)
               | None => []
               end
  end.

(** [ref['children'].append(c)] where [ref] is the node at path [p];
    [all_records.append(c)] for the empty path. *)
Fixpoint append_at (p : path) (c : node) (rs : list node) : list node :=
  match p with
  | [] => rs ++ [c]
  | i :: p' =>
      alter (fun n => with_children n (append_at p' c (children n))) i rs
  end.

(* ================================================================== *)
(** ** parse_gedcom_lines *)

(** What lines 24-54 compute for one line. *)
Record token := Token {
  t_level : Z;
  t_xref : option str;
  t_tag : str;
  t_value : str
}.

(** Lines 24-54 of the loop body: [Ok None] is [continue] (blank line, or
    ValueError caught), [Raise] an exception nobody catches. *)
Definition tokenize (line : str) : result (option token) :=
  let stripped := strip line in
  match stripped with
  | [] => Ok None
  | _ =>
    let parts := split 2 stripped in
    match int (nth 0 parts []) with
    | None => Ok None
    | Some lvl =>
      if (1 <? length parts)%nat
         && startswith (nth 1 parts []) AT && endswith (nth 1 parts []) AT
      then
        let xref := Some (nth 1 parts []) in
        if (2 <? length parts)%nat then
          let rest := nth 2 parts [] in
          let rest_parts := split 1 rest in
          let tg := nth 0 rest_parts [] in
          let vl := if (1 <? length rest_parts)%nat
                    then nth 1 rest_parts [] else [] in
          Ok (Some (Token lvl xref tg vl))
        else Ok (Some (Token lvl xref [] []))
      else
        tg <- getitem parts 1 ;;
        let vl := if (2 <? length parts)%nat then nth 2 parts [] else [] in
        Ok (Some (Token lvl None tg vl))
    end
  end.

(** The test of line 58. *)
Definition is_garbage (t : token) : bool :=
  (t_level t =? 0) && eqb (t_tag t) T_LOC
  && startswith (t_value t) AT && endswith (t_value t) AT
  && negb (truthy (t_xref t)).

(** The loop state.  [stack] is kept top first; [id_map] maps a record id
    to the index of its record in [all_records]. *)
Record pstate := PState {
  all_records : list node;
  id_map : dict nat;
  stack : list (Z * path)
}.

(** [while stack and stack[-1][0] >= level: stack.pop()] *)
Fixpoint pop_while (lvl : Z) (st : list (Z * path)) : list (Z * path) :=
  match st with
  | [] => []
  | (l, p) :: st' => if l >=? lvl then pop_while lvl st' else st
  end.

(** Lines 56-83 for a token. *)
Definition place (s : pstate) (t : token) : pstate :=
  if is_garbage t then s
  else
    let nd := Node (t_level t) (t_tag t) (t_value t) (t_xref t) [] in
    if t_level t =? 0 then
      let idx := length (all_records s) in
      PState (append_at [] nd (all_records s))
             (if eqb (t_tag t) T_LOC && truthy (t_xref t)
              then dict_set (id_map s)
                     (strip_chr AT (match t_xref t with Some x => x | None => [] end))
                     idx
              else id_map s)
             [(0, [idx])]
    else
      match pop_while (t_level t) (stack s) with
      | [] => PState (all_records s) (id_map s) []
      | (lp, p) :: st' =>
          PState (append_at p nd (all_records s))
                 (id_map s)
                 ((t_level t, p ++ [length (kids p (all_records s))])
                  :: (lp, p) :: st')
      end.

(** One iteration of the loop of line 23. *)
Definition parse_line (s : pstate) (line : str) : result pstate :=
  tk <- tokenize line ;;
  match tk with
  | None => Ok s
  | Some t => Ok (place s t)
  end.

Fixpoint parse_loop (s : pstate) (lines : list str) : result pstate :=
  match lines with
  | [] => Ok s
  | line :: rest => s' <- parse_line s line ;; parse_loop s' rest
  end.

Definition parse_gedcom_lines (lines : list str)
  : result (list node * dict nat) :=
  s <- parse_loop (PState [] [] []) lines ;;
  Ok (all_records s, id_map s).

(** ** parse_gedcom: reading the file *)

(** Text mode with the default [newline=None]: every "\r\n" and every
    lone "\r" is read as "\n". *)
Fixpoint universal_newlines (s : str) : str :=
  match s with
  | [] => []
  | c :: s' =>
      if chr_eqb c CR then
        match s' with
        | c' :: s'' =>
            if chr_eqb c' LF then LF :: universal_newlines s''
            else LF :: universal_newlines s'
        | [] => [LF]
        end
      else c :: universal_newlines s'
  end.

(** [f.readlines()] on the translated text: the lines keep their "\n". *)
Fixpoint readlines (s : str) : list str :=
  match s with
  | [] => []
  | c :: s' =>
      if chr_eqb c LF then [c] :: readlines s'
      else match readlines s' with
           | [] => [[c]]
           | l :: ls => (c :: l) :: ls
           end
  end.

(** [file] is the content of the file, [None] when it does not exist. *)
Definition parse_gedcom (file : option str) : result (list node * dict nat) :=
  match file with
  | None => Ok ([], [])
  | Some text => parse_gedcom_lines (readlines (universal_newlines text))
  end.

(* ================================================================== *)
(** ** serialize_record *)

Fixpoint serialize_record (record : node) : str :=
  let parts := [str_of_int (level record)] in
  let parts := match xref_id record with
               | Some (c :: x) => parts ++ [c :: x]
               | _ => parts
               end in
  let parts := parts ++ [tag record] in
  let parts := match value record with
               | [] => parts
               | v => parts ++ [v]
               end in
  let lines := [join [SP] parts] in
  let lines := lines ++ map serialize_record (children record) in
  join [LF] lines.

(** What [main] writes for a list of records (lines 267-269).  The file
    layer may write "\n" as the line separator of the platform; reading
    in text mode turns it back into "\n". *)
Definition write_records (records : list node) : str :=
  concat (map (fun rec => serialize_record rec ++ [LF]) records).

(* ================================================================== *)
(** ** The external records *)

(** An entry of [names]: the key [name], and [period] when present. *)
Record name_entry := NameEntry {
  n_name : str;
  n_period : option str
}.

(** An entry of [parents]: [p.get('id')] and [period] when present. *)
Record parent_entry := ParentEntry {
  p_id : option str;
  p_period : option str
}.

(** An item of the YAML data: the keys [names] and [parents], each
    possibly absent; when present they are lists of mappings with string
    values, as the external source documents them. *)
Record yaml_item := YamlItem {
  names : option (list name_entry);
  parents : option (list parent_entry)
}.

(** What one call of [update_record] may draw from outside: the result
    of [generate_uid()] and the two strings [create_chan_node] formats
    from the clock. *)
Record fresh := Fresh {
  uid : str;
  date_str : str;
  time_str : str
}.

(* ================================================================== *)
(** ** create_chan_node, update_record, create_new_record *)

Definition create_chan_node (fr : fresh) : node :=
  Node 1 CHAN [] None
    [Node 2 DATE (date_str fr) None
       [Node 3 TIME (time_str fr) None []]].

(** The variables the loop of lines 137-149 assigns. *)
Record mstate := MState {
  name_abbrs : dict str;
  preserved_children : list node;
  has_uid : bool;
  existing_chan : option node
}.

(** Lines 140-142. *)
Definition scan_subs (name_val : str) (subs : list node) (d : dict str)
  : dict str :=
  fold_left
    (fun d sub => if eqb (tag sub) ABBR then dict_set d name_val (value sub)
                  else d)
    subs d.

(** Lines 138-149: the body of the loop for one child. *)
Definition scan_child (m : mstate) (child : node) : mstate :=
  if eqb (tag child) NAME then
    MState (scan_subs (value child) (children child) (name_abbrs m))
           (preserved_children m) (has_uid m) (existing_chan m)
  else if eqb (tag child) T_UID then
    MState (name_abbrs m) (preserved_children m ++ [child]) true
           (existing_chan m)
  else if eqb (tag child) CHAN then
    MState (name_abbrs m) (preserved_children m) (has_uid m) (Some child)
  else if negb (existsb (eqb (tag child)) [NAME; T_LOC; CHAN]) then
    MState (name_abbrs m) (preserved_children m ++ [child]) (has_uid m)
           (existing_chan m)
  else m.

(** Lines 159-167. *)
Definition name_node (abbrs : dict str) (n : name_entry) : node :=
  let kids0 := [] in
  let kids1 := match dict_get abbrs (n_name n) with
               | Some a => kids0 ++ [Node 2 ABBR a None []]
               | None => kids0
               end in
  let kids2 := match n_period n with
               | Some p => kids1 ++ [Node 2 DATE p None []]
               | None => kids1
               end in
  Node 1 NAME (n_name n) None kids2.

(** Lines 172-178: nothing for a parent without a true [id]. *)
Definition loc_nodes (p : parent_entry) : list node :=
  match p_id p with
  | Some (c :: pid) =>
      let loc_val := [AT] ++ (c :: pid) ++ [AT] in
      [Node 1 T_LOC loc_val None
         (match p_period p with
          | Some d => [Node 2 DATE d None []]
          | None => []
          end)]
  | _ => []
  end.

Definition is_uid (c : node) : bool := eqb (tag c) T_UID.

Definition update_record (fr : fresh) (record : node) (item : yaml_item)
  : node :=
  let m := fold_left scan_child (children record)
             (MState [] [] false None) in
  let preserved := if has_uid m then preserved_children m
                   else Node 1 T_UID (uid fr) None [] :: preserved_children m in
  let new_children :=
    match names item with
    | Some ns => map (name_node (name_abbrs m)) ns
    | None => []
    end in
  let new_children :=
    match parents item with
    | Some ps => new_children ++ flat_map loc_nodes ps
    | None => new_children
    end in
  let uid_nodes := filter is_uid preserved in
  let other_preserved := filter (fun c => negb (is_uid c)) preserved in
  let final_list := uid_nodes in
  let final_list := match existing_chan m with
                    | Some ch => final_list ++ [ch]
                    | None => final_list ++ [create_chan_node fr]
                    end in
  let final_list := final_list ++ other_preserved in
  let final_list := final_list ++ new_children in
  with_children record final_list.

Definition create_new_record (fr : fresh) (rec_id : str) (item : yaml_item)
  : node :=
  let record := Node 0 T_LOC [] (Some ([AT] ++ rec_id ++ [AT])) [] in
  update_record fr record item.

(* ================================================================== *)
(** ** load_yaml_data *)

(** What [yaml.safe_load] gives for one file of the data directory: a
    YAMLError, a value that is not a list, or a list of mappings, each
    with the value of its key [id] when it has one. *)
Inductive yaml_doc :=
| YamlError
| NotAList
| Items (items : list (option str * yaml_item)).

(** Lines 104-106 for one item. *)
Definition add_item (combined : dict yaml_item)
  (item : option str * yaml_item) : dict yaml_item :=
  match fst item with
  | Some id => dict_set combined id (snd item)
  | None => combined
  end.

(** Lines 99-108: [files] is what the files hold, in the order [glob]
    lists them.  An empty list is false at line 103, as is any value
    that is not a list; the YAMLError is caught and reported. *)
Definition load_yaml_data (files : list yaml_doc) : dict yaml_item :=
  fold_left
    (fun combined doc =>
       match doc with
       | Items items => fold_left add_item items combined
       | _ => combined
       end)
    files [].

(* ================================================================== *)
(** ** main *)

(** The index of the first element that satisfies [f] (lines 252-256). *)
Fixpoint find_index {A} (f : A -> bool) (xs : list A) : option nat :=
  match xs with
  | [] => None
  | x :: xs' => if f x then Some O
                else option_map S (find_index f xs')
  end.

(** [xs.pop(i)]: the list without its element of index [i]. *)
Fixpoint remove_at {A} (i : nat) (xs : list A) : list A :=
  match xs, i with
  | [], _ => []
  | _ :: xs', O => xs'
  | x :: xs', S j => x :: remove_at j xs'
  end.

(** Lines 241-249 for one item of [yaml_data]; [k] counts the
    iterations, and the [k]-th iteration draws [src k]. *)
Definition merge_item (src : nat -> fresh)
  (acc : list node * dict nat * nat) (entry : str * yaml_item)
  : list node * dict nat * nat :=
  let '(records, idm, k) := acc in
  let '(y_id, y_item) := entry in
  match dict_get idm y_id with
  | Some i =>
      (alter (fun r => update_record (src k) r y_item) i records, idm, S k)
  | None =>
      let new_rec := create_new_record (src k) y_id y_item in
      (records ++ [new_rec], dict_set idm y_id (length records), S k)
  end.

(** Lines 251-262. *)
Definition move_trlr (records : list node) : list node :=
  match find_index (fun r => eqb (tag r) TRLR) records with
  | Some i =>
      match nth_error records i with
      | Some trlr => remove_at i records ++ [trlr]
      | None => records
      end
  | None => records ++ [Node 0 TRLR [] None []]
  end.

(** The records [main] serializes: [file] is the content of
    locations.ged ([None] when absent), [yaml_data] the result of
    [load_yaml_data()] in iteration order. *)
Definition main_records (file : option str)
  (yaml_data : list (str * yaml_item)) (src : nat -> fresh)
  : result (list node) :=
  parsed <- parse_gedcom file ;;
  let '(records, _, _) :=
    fold_left (merge_item src) yaml_data (fst parsed, snd parsed, O) in
  Ok (move_trlr records).

(** The text [main] writes to locations.ged. *)
Definition main (file : option str)
  (yaml_data : list (str * yaml_item)) (src : nat -> fresh) : result str :=
  records <- main_records file yaml_data src ;;
  Ok (write_records records).

(* ================================================================== *)
(** * Definitions used by the statements and the proofs *)

(** The last element of a list. *)
Fixpoint last_opt {A} (l : list A) : option A :=
  match l with
  | [] => None
  | [x] => Some x
  | _ :: l' => last_opt l'
  end.

(** ** The merge as the specification words it *)

Module Merge.

(** The description of section 4.4 of the specification, written
    directly on the list of children found before the merge. *)

Definition is_chan (c : node) : bool := eqb (tag c) CHAN.

(** A child kept verbatim: its tag is none of NAME, _LOC, CHAN, _UID. *)
Definition foreign (c : node) : bool :=
  negb (existsb (eqb (tag c)) [NAME; T_LOC; CHAN; T_UID]).

(** The unique-id nodes: those found, or a generated one when none. *)
Definition merged_uids (fr : fresh) (cs : list node) : list node :=
  match filter is_uid cs with
  | [] => [Node 1 T_UID (uid fr) None []]
  | us => us
  end.

(** The change-metadata node: the last one found, or a new one. *)
Definition merged_chan (fr : fresh) (cs : list node) : node :=
  match last_opt (filter is_chan cs) with
  | Some ch => ch
  | None => create_chan_node fr
  end.

(** The values of the ABBR sub-children found under the NAME children
    valued [name], in document order; the last one is carried over. *)
Definition abbrs_under (name : str) (c : node) : list str :=
  if eqb (tag c) NAME && eqb (value c) name
  then map value (filter (fun s => eqb (tag s) ABBR) (children c))
  else [].

Definition abbr_values (name : str) (cs : list node) : list str :=
  flat_map (abbrs_under name) cs.

Definition carried_abbr (name : str) (cs : list node) : option str :=
  last_opt (abbr_values name cs).

Definition opt_node (tg : str) (v : option str) : list node :=
  match v with
  | Some x => [Node 2 tg x None []]
  | None => []
  end.

Definition merged_name (cs : list node) (n : name_entry) : node :=
  Node 1 NAME (n_name n) None
    (opt_node ABBR (carried_abbr (n_name n) cs) ++ opt_node DATE (n_period n)).

Definition merged_names (cs : list node) (item : yaml_item) : list node :=
  match names item with
  | Some ns => map (merged_name cs) ns
  | None => []
  end.

Definition merged_links (item : yaml_item) : list node :=
  match parents item with
  | Some ps => flat_map loc_nodes ps
  | None => []
  end.

Definition merged_children (fr : fresh) (cs : list node) (item : yaml_item)
  : list node :=
  merged_uids fr cs ++ [merged_chan fr cs] ++ filter foreign cs
  ++ merged_names cs item ++ merged_links item.

Definition keepable (c : node) : bool :=
  negb (existsb (eqb (tag c)) [NAME; T_LOC; CHAN]).

Definition or_else {A} (a b : option A) : option A :=
  match a with Some x => Some x | None => b end.

End Merge.

(** ** Counting tags, and sample inputs *)

Definition count_tag (t : str) (cs : list node) : nat :=
  length (filter (fun c => eqb (tag c) t) cs).

Definition Springfield : str := Eval cbv in lit "Springfield".
Definition SPR : str := Eval cbv in lit "SPR".

(** Sample inputs. *)
Definition fresh0 : fresh :=
  Fresh (lit "0123456789ABCDEF0123456789ABCDEF") (lit "17 MAR 2024")
        (lit "10:20:30.4").

Definition no_data : yaml_item := YamlItem None None.

Definition springfield_item : yaml_item :=
  YamlItem (Some [NameEntry Springfield None]) None.


Definition record_two_abbrs : node :=
  Node 0 T_LOC [] (Some (lit "@L1@"))
    [Node 1 NAME Springfield None
       [Node 2 ABBR SPR None []; Node 2 ABBR (lit "SPG") None []]].

Definition record_one_abbr : node :=
  Node 0 T_LOC [] (Some (lit "@L1@"))
    [Node 1 NAME Springfield None [Node 2 ABBR SPR None []]].

(** A NAME child valued [name] with an ABBR sub-child valued [abbr]. *)
Definition carries (name abbr : str) (c : node) : bool :=
  eqb (tag c) NAME && eqb (value c) name
  && existsb (fun s => eqb (tag s) ABBR && eqb (value s) abbr) (children c).

Definition L1 : str := Eval cbv in lit "L1".



(** A file with doubled spaces, a carriage return, levels written with
    a sign, a discarded record, orphans and a line without level. *)
Definition sample_text : str := Eval cbv in
  lit "0  HEAD junk" ++ [CR; LF] ++ lit "1 CHAR   UTF-8  " ++ [CR] ++ lit
"0 @L1@ _LOC
1 NAME Springfield
5 ABBR SPR
+1 _UID 00FF
0 _LOC @L9@
2 @N1@ NOTE kept under the record before
0 @X@
-1 BAD
1 LOST
not a line
0 TRLR".

Definition sample_records : list node * dict nat :=
  Eval vm_compute in
    match parse_gedcom (Some sample_text) with
    | Ok r => r
    | Raise _ => ([], [])
    end.

(** ** Trimmed strings and decimal digits *)

(** The first character, if any, does not satisfy [f]. *)
Definition headok (f : ascii -> bool) (s : str) : Prop :=
  match s with
  | [] => True
  | c :: _ => f c = false
  end.

(** Neither end of the string satisfies [f]. *)
Definition trimmed (f : ascii -> bool) (s : str) : Prop :=
  headok f s /\ headok f (rev s).

(** The characters [str()] produces. *)
Definition numeric (c : ascii) : bool :=
  match digit_val c with
  | Some _ => true
  | None => chr_eqb c "-"%char
  end.

(** The value of a decimal starting from an accumulator. *)
Fixpoint uint_val (acc : Z) (d : Decimal.uint) : Z :=
  match d with
  | Decimal.Nil => acc
  | Decimal.D0 d => uint_val (10 * acc + 0) d
  | Decimal.D1 d => uint_val (10 * acc + 1) d
  | Decimal.D2 d => uint_val (10 * acc + 2) d
  | Decimal.D3 d => uint_val (10 * acc + 3) d
  | Decimal.D4 d => uint_val (10 * acc + 4) d
  | Decimal.D5 d => uint_val (10 * acc + 5) d
  | Decimal.D6 d => uint_val (10 * acc + 6) d
  | Decimal.D7 d => uint_val (10 * acc + 7) d
  | Decimal.D8 d => uint_val (10 * acc + 8) d
  | Decimal.D9 d => uint_val (10 * acc + 9) d
  end.

(** ** Tokens and the lines written for them *)

(** Lines 29-54, once [parts] is known. *)
Definition tok_of_parts (parts : list str) : result (option token) :=
  match int (nth 0 parts []) with
  | None => Ok None
  | Some lvl =>
    if (1 <? length parts)%nat
       && startswith (nth 1 parts []) AT && endswith (nth 1 parts []) AT
    then
      let xref := Some (nth 1 parts []) in
      if (2 <? length parts)%nat then
        let rest := nth 2 parts [] in
        let rest_parts := split 1 rest in
        let tg := nth 0 rest_parts [] in
        let vl := if (1 <? length rest_parts)%nat
                  then nth 1 rest_parts [] else [] in
        Ok (Some (Token lvl xref tg vl))
      else Ok (Some (Token lvl xref [] []))
    else
      tg <- getitem parts 1 ;;
      let vl := if (2 <? length parts)%nat then nth 2 parts [] else [] in
      Ok (Some (Token lvl None tg vl))
  end.

(** The node line 62 builds from a token. *)
Definition node_of (t : token) : node :=
  Node (t_level t) (t_tag t) (t_value t) (t_xref t) [].

(** The first line [serialize_record] renders (lines 211-218). *)
Definition header (record : node) : str :=
  let parts := [str_of_int (level record)] in
  let parts := match xref_id record with
               | Some (c :: x) => parts ++ [c :: x]
               | _ => parts
               end in
  let parts := parts ++ [tag record] in
  let parts := match value record with
               | [] => parts
               | v => parts ++ [v]
               end in
  join [SP] parts.

(** The line written for a token. *)
Definition render (t : token) : str := header (node_of t) ++ [LF].

(** No line break inside. *)
Definition nobreak (s : str) : Prop :=
  Forall (fun c => c <> LF /\ c <> CR) s.

(** A line of [readlines]: a text free of line breaks, then "\n" unless
    the text ended without one. *)
Definition is_line (l : str) : Prop :=
  exists body, (l = body \/ l = body ++ [LF]) /\ nobreak body.

(** The tokens of the lines that yield one. *)
Fixpoint tokens (lines : list str) : result (list token) :=
  match lines with
  | [] => Ok []
  | line :: rest =>
      tk <- tokenize line ;;
      ts <- tokens rest ;;
      Ok (match tk with Some t => t :: ts | None => ts end)
  end.

(** A token whose rendered line has no line break and reads back as the
    token. *)
Definition good_token (t : token) : Prop :=
  nobreak (header (node_of t))
  /\ tokenize (header (node_of t) ++ [LF]) = Ok (Some t).

(** ** The rightmost branch, and the tokens that are kept *)

(** The path goes through the last node of each list. *)
Fixpoint rightmost (p : path) (rs : list node) : Prop :=
  match p with
  | [] => True
  | i :: p' => exists cs0 n, rs = cs0 ++ [n] /\ i = length cs0
                             /\ rightmost p' (children n)
  end.

Definition prefix_of (q p : path) : Prop := exists r, p = q ++ r.

(** Every entry of the stack refers to a node of the rightmost branch,
    and the entries below it to its ancestors. *)
Fixpoint stack_ok (rs : list node) (stk : list (Z * path)) : Prop :=
  match stk with
  | [] => True
  | (_, p) :: rest =>
      rightmost p rs
      /\ Forall (fun e => prefix_of (snd e) p) rest
      /\ stack_ok rs rest
  end.

(** The token leaves a node in the forest: it is not discarded by the
    test of line 58, and it is a record or finds a parent. *)
Definition placed (s : pstate) (t : token) : bool :=
  negb (is_garbage t)
  && ((t_level t =? 0)
      || match pop_while (t_level t) (stack s) with
         | [] => false
         | _ => true
         end).

(** The tokens, among [ts], that leave a node when the loop runs from
    the state [s]. *)
Fixpoint kept (s : pstate) (ts : list token) : list token :=
  match ts with
  | [] => []
  | t :: ts' =>
      if placed s t then t :: kept (place s t) ts'
      else kept (place s t) ts'
  end.

Definition invariant (s : pstate) : Prop :=
  stack_ok (all_records s) (stack s).

(** Two loop states that differ at most by their stack. *)
Definition same_forest (a b : pstate) : Prop :=
  all_records a = all_records b /\ id_map a = id_map b.

(** ** Lines the parser skips, and lines it fails on *)

(** The line is blank, or its first segment is no integer (lines 25-32). *)
Definition skipped (line : str) : bool :=
  match strip line with
  | [] => true
  | s => match int (nth 0 (split 2 s) []) with
         | Some _ => false
         | None => true
         end
  end.

(** The line holds an integer and nothing else. *)
Definition level_only (line : str) : bool :=
  match strip line with
  | [] => false
  | s => negb (existsb (fun c => chr_eqb c SP) s)
         && match int s with Some _ => true | None => false end
  end.

(** ** The shape of a parsed forest *)

(** The node has a level above [lp], and each of its children a level
    above its own, all the way down. *)
Fixpoint deeper (lp : Z) (n : node) : bool :=
  match n with
  | Node l _ _ _ cs => (lp <? l) && forallb (deeper l) cs
  end.

(** Everything a node holds but its children. *)
Definition fields (n : node) : Z * str * str * option str :=
  (level n, tag n, value n, xref_id n).

Definition token_fields (t : token) : Z * str * str * option str :=
  (t_level t, t_tag t, t_value t, t_xref t).

(** The token makes a top-level record (lines 58 and 64). *)
Definition is_record_token (t : token) : bool :=
  (t_level t =? 0) && negb (is_garbage t).

(** The id under which lines 69-71 index a record, if they do. *)
Definition key_of (r : node) : option str :=
  if eqb (tag r) T_LOC && truthy (xref_id r)
  then Some (strip_chr AT (match xref_id r with Some x => x | None => [] end))
  else None.

(** The position, counted from [i0], of the last record indexed under
    [k]. *)
Fixpoint last_keyed (k : str) (i0 : nat) (rs : list node) : option nat :=
  match rs with
  | [] => None
  | r :: rs' =>
      match last_keyed k (S i0) rs' with
      | Some j => Some j
      | None => match key_of r with
                | Some k' => if eqb k' k then Some i0 else None
                | None => None
                end
      end
  end.

(** The node a non-empty path leads to. *)
Fixpoint node_at (p : path) (rs : list node) : option node :=
  match p with
  | [] => None
  | i :: p' =>
      match nth_error rs i with
      | None => None
      | Some n => match p' with
                  | [] => Some n
                  | _ => node_at p' (children n)
                  end
      end
  end.

(** Every entry of the stack holds the level of the node it refers to. *)
Definition stack_levels (s : pstate) : Prop :=
  Forall (fun e => snd e <> []
                   /\ option_map level (node_at (snd e) (all_records s))
                      = Some (fst e))
         (stack s).

(** ** The merger, once more *)

(** The external record lists the name [k]. *)
Definition lists_name (item : yaml_item) (k : str) : bool :=
  match names item with
  | Some ns => existsb (fun n => eqb (n_name n) k) ns
  | None => false
  end.

(** A NAME child for the entry [n], with the abbreviation [ab] if any. *)
Definition name_child (ab : option str) (n : name_entry) : node :=
  Node 1 NAME (n_name n) None
    (Merge.opt_node ABBR ab ++ Merge.opt_node DATE (n_period n)).

Definition names_of (item : yaml_item) : list name_entry :=
  match names item with Some ns => ns | None => [] end.

(** ** The loop of [main] *)

(** The records after the loop of lines 241-249. *)
Definition merge_loop (src : nat -> fresh) (yaml_data : list (str * yaml_item))
  (records : list node) (idm : dict nat) : list node :=
  fst (fst (fold_left (merge_item src) yaml_data (records, idm, O))).

(** One new record per external record, the [k]-th and following draws
    of [src] in turn. *)
Fixpoint new_records (src : nat -> fresh) (k : nat)
  (yaml_data : list (str * yaml_item)) : list node :=
  match yaml_data with
  | [] => []
  | (y_id, y_item) :: rest =>
      create_new_record (src k) y_id y_item :: new_records src (S k) rest
  end.

(** ** What [load_yaml_data] has read *)

(** The items of all the files that hold a list, in reading order. *)
Definition all_items (files : list yaml_doc)
  : list (option str * yaml_item) :=
  flat_map (fun doc => match doc with Items items => items | _ => [] end)
           files.

(** The items that carry the id [k]. *)
Definition items_for (k : str) (items : list (option str * yaml_item))
  : list yaml_item :=
  map snd
      (filter (fun it => match fst it with
                         | Some id => eqb id k
                         | None => false
                         end)
              items).

(** The line written for the record made for the id [x]. *)
Definition loc_line (x : str) : str :=
  lit "0 " ++ (AT :: x ++ [AT]) ++ lit " _LOC".

(** ** Forests that read back as they are *)

(** The token that line 62 turns into the node, without its children. *)
Definition token_of (n : node) : token :=
  Token (level n) (xref_id n) (tag n) (value n).

(** The nodes of a tree, parents before children, in writing order. *)
Fixpoint flatten (n : node) : list node :=
  match n with
  | Node _ _ _ _ cs => n :: flat_map flatten cs
  end.

Fixpoint nonincreasing (ls : list Z) : bool :=
  match ls with
  | a :: (b :: _) as rest => (b <=? a) && nonincreasing rest
  | _ => true
  end.

(** Every child has a level above its parent's, and no child has a level
    above the level of the child before it. *)
Fixpoint levels_ok (n : node) : bool :=
  match n with
  | Node l _ _ _ cs =>
      forallb (fun c => l <? level c) cs
      && nonincreasing (map level cs)
      && forallb levels_ok cs
  end.

(** A forest whose lines the parser reads as they were written: level-0
    records that the test of line 58 does not discard, levels as above,
    and every node's line reads back as the node's fields. *)
Definition readable (rs : list node) : Prop :=
  Forall (fun r => level r = 0 /\ is_garbage (token_of r) = false) rs
  /\ forallb levels_ok rs = true
  /\ Forall (fun n => good_token (token_of n)) (flat_map flatten rs).

(** The state the loop keeps: the stack designates the rightmost branch
    with the right levels, the records have level 0 and levels rise. *)
Definition shaped (s : pstate) : Prop :=
  invariant s /\ stack_levels s
  /\ forallb (deeper (-1)) (all_records s) = true
  /\ Forall (fun r => level r = 0) (all_records s).

(** What reading the lines of a tree does, below the entry the stack is
    popped to. *)
Definition attaches (t : node) : Prop :=
  forall s lp p st',
    invariant s ->
    levels_ok t = true -> lp < level t -> 0 <= lp ->
    pop_while (level t) (stack s) = (lp, p) :: st' ->
    let s' := fold_left place (map token_of (flatten t)) s in
    all_records s' = append_at p t (all_records s)
    /\ id_map s' = id_map s
    /\ exists top, stack s' = top ++ (lp, p) :: st'
                   /\ Forall (fun e => level t <= fst e) top.

(** No line break inside, as a test. *)
Definition nobreakb (s : str) : bool :=
  forallb (fun c => negb (chr_eqb c LF || chr_eqb c CR)) s.

(** ** External data that is written and read back unchanged *)

(** A value without line break that does not end with white space. *)
Definition clean_value (v : str) : Prop :=
  nobreak v /\ headok isspace (rev v).

(** An id without space or line break that neither starts nor ends with
    "@". *)
Definition clean_id (x : str) : Prop :=
  ~ In SP x /\ nobreak x /\ trimmed (chr_eqb AT) x.

Definition clean_opt (v : option str) : Prop :=
  match v with Some x => clean_value x | None => True end.

Definition clean_name (n : name_entry) : Prop :=
  clean_value (n_name n) /\ clean_opt (n_period n).

Definition clean_parent (p : parent_entry) : Prop :=
  match p_id p with Some x => nobreak x | None => True end
  /\ clean_opt (p_period p).

Definition clean_item (item : yaml_item) : Prop :=
  Forall clean_name (names_of item)
  /\ Forall clean_parent
       (match parents item with Some ps => ps | None => [] end).

Definition clean_fresh (fr : fresh) : Prop :=
  clean_value (uid fr) /\ clean_value (date_str fr)
  /\ clean_value (time_str fr).

Definition clean_data (yaml_data : list (str * yaml_item)) : Prop :=
  NoDup (map fst yaml_data)
  /\ Forall (fun e => clean_id (fst e) /\ clean_item (snd e)) yaml_data.

(** The tags the merger writes. *)
Definition known_tags : list str :=
  [T_UID; CHAN; DATE; TIME; NAME; T_LOC; ABBR; TRLR].

Definition small_forest : list node :=
  [Node 0 (lit "HEAD") [] None
     [Node 1 (lit "GEDC") [] None [Node 3 (lit "VERS") (lit "5.5.1") None []];
      Node 1 (lit "CHAR") (lit "UTF-8") None []];
   Node 0 T_LOC [] (Some (lit "@L1@"))
     [Node 1 NAME (lit "New  Amsterdam") None []];
   Node 0 TRLR [] None []].

(** The record [main] appends when there is no trailer (line 258). *)
Definition trailer : node := Node 0 TRLR [] None [].

(** What the first run of [main] writes when locations.ged is absent. *)
Definition first_records (src : nat -> fresh)
  (yaml_data : list (str * yaml_item)) : list node :=
  new_records src O yaml_data ++ [trailer].

(** Two external records, the first a part of the second. *)
Definition sample_data : list (str * yaml_item) :=
  [(L1, YamlItem (Some [NameEntry Springfield (Some (lit "FROM 1850"))])
                 (Some [ParentEntry (Some (lit "L2")) None]));
   (lit "L2", no_data)].

(* ================================================================== *)
(** * Properties *)

(** ** Strings and dicts *)

Lemma eqb_eq (a b : str) : eqb a b = true <-> a = b.
Proof.
  revert b; induction a as [|x a IH]; intros [|y b]; simpl;
    try (split; congruence).
  rewrite andb_true_iff. unfold chr_eqb. rewrite Ascii.eqb_eq, IH.
  split; [intros [-> ->]; reflexivity | intros H; inversion H; auto].
Qed.

Lemma eqb_refl (a : str) : eqb a a = true.
Proof. apply eqb_eq; reflexivity. Qed.

Lemma eqb_neq (a b : str) : eqb a b = false <-> a <> b.
Proof.
  destruct (eqb a b) eqn:E.
  - apply eqb_eq in E. split; [discriminate | congruence].
  - split; [intros _ H; apply eqb_eq in H; congruence | reflexivity].
Qed.

Lemma eqb_sym (a b : str) : eqb a b = eqb b a.
Proof.
  destruct (eqb a b) eqn:E1, (eqb b a) eqn:E2; try reflexivity.
  - apply eqb_eq in E1; subst. rewrite eqb_refl in E2; discriminate.
  - apply eqb_eq in E2; subst. rewrite eqb_refl in E1; discriminate.
Qed.

Lemma dict_get_set {V} (d : dict V) (k k' : str) (v : V) :
  dict_get (dict_set d k v) k' = if eqb k k' then Some v else dict_get d k'.
Proof.
  induction d as [|[k0 v0] d IH]; simpl.
  - reflexivity.
  - destruct (eqb k0 k) eqn:E0; simpl.
    + apply eqb_eq in E0; subst k0. destruct (eqb k k'); reflexivity.
    + rewrite IH. destruct (eqb k0 k') eqn:E1; [|reflexivity].
      apply eqb_eq in E1; subst k'. rewrite eqb_sym, E0. reflexivity.
Qed.

Lemma last_opt_cons {A} (x : A) (l : list A) :
  last_opt (x :: l) =
  match last_opt l with Some y => Some y | None => Some x end.
Proof.
  revert x; induction l as [|y l IH]; intros x; [reflexivity|].
  change (last_opt (x :: y :: l)) with (last_opt (y :: l)).
  rewrite (IH y). destruct (last_opt l); reflexivity.
Qed.

Lemma last_opt_app {A} (a b : list A) :
  last_opt (a ++ b) =
  match last_opt b with Some x => Some x | None => last_opt a end.
Proof.
  induction a as [|x a IH].
  - simpl. destruct (last_opt b); reflexivity.
  - rewrite <- app_comm_cons, !last_opt_cons, IH.
    destruct (last_opt b); reflexivity.
Qed.

Lemma filter_all {A} (f : A -> bool) (l : list A) :
  Forall (fun x => f x = true) l -> filter f l = l.
Proof.
  induction 1 as [|x l Hx _ IH]; simpl; [reflexivity|].
  rewrite Hx, IH. reflexivity.
Qed.

Lemma filter_none {A} (f : A -> bool) (l : list A) :
  Forall (fun x => f x = false) l -> filter f l = [].
Proof.
  induction 1 as [|x l Hx _ IH]; simpl; [reflexivity|].
  rewrite Hx, IH. reflexivity.
Qed.

Lemma filter_filter {A} (f g : A -> bool) (l : list A) :
  filter f (filter g l) = filter (fun x => g x && f x) l.
Proof.
  induction l as [|x l IH]; simpl; [reflexivity|].
  destruct (g x); simpl; [destruct (f x)|]; rewrite IH; reflexivity.
Qed.

(* ================================================================== *)
(** ** The merger: what [update_record] leaves in [children] *)

Module MergeFacts.

Import Merge.

(** *** The loop of lines 137-149 *)

Lemma scan_subs_get (nv : str) (subs : list node) (d : dict str) (k : str) :
  dict_get (scan_subs nv subs d) k =
  if eqb nv k
  then or_else
         (last_opt (map value (filter (fun s => eqb (tag s) ABBR) subs)))
         (dict_get d k)
  else dict_get d k.
Proof.
  unfold scan_subs. revert d.
  induction subs as [|sub subs IH]; intros d; simpl.
  - destruct (eqb nv k); reflexivity.
  - rewrite IH. destruct (eqb (tag sub) ABBR); [|reflexivity].
    rewrite dict_get_set. destruct (eqb nv k); [|reflexivity].
    simpl map.
    change (value sub :: ?l) with ([value sub] ++ l).
    rewrite last_opt_app.
    destruct (last_opt _); reflexivity.
Qed.

Lemma scan_child_spec (m : mstate) (c : node) :
  preserved_children (scan_child m c) =
    preserved_children m ++ (if keepable c then [c] else [])
  /\ has_uid (scan_child m c) = has_uid m || is_uid c
  /\ existing_chan (scan_child m c) =
       (if is_chan c then Some c else existing_chan m)
  /\ forall k, dict_get (name_abbrs (scan_child m c)) k =
                or_else (last_opt (abbrs_under k c))
                        (dict_get (name_abbrs m) k).
Proof.
  unfold scan_child, keepable, is_uid, is_chan, abbrs_under.
  simpl existsb.
  destruct (eqb (tag c) NAME) eqn:EN.
  { apply eqb_eq in EN. rewrite EN. simpl.
    rewrite app_nil_r, orb_false_r. repeat split.
    intros k. rewrite scan_subs_get. destruct (eqb (value c) k); reflexivity. }
  destruct (eqb (tag c) T_UID) eqn:EU.
  { apply eqb_eq in EU. rewrite EU. simpl. rewrite orb_true_r.
    repeat split. }
  destruct (eqb (tag c) CHAN) eqn:EC.
  { simpl. rewrite orb_true_r, app_nil_r, orb_false_r. repeat split. }
  simpl. rewrite !orb_false_r.
  destruct (eqb (tag c) T_LOC); simpl; rewrite ?app_nil_r; repeat split.
Qed.

Lemma scan_spec (cs : list node) (m : mstate) :
  let m' := fold_left scan_child cs m in
  preserved_children m' = preserved_children m ++ filter keepable cs
  /\ has_uid m' = has_uid m || existsb is_uid cs
  /\ existing_chan m' =
       or_else (last_opt (filter is_chan cs)) (existing_chan m)
  /\ forall k, dict_get (name_abbrs m') k =
                or_else (carried_abbr k cs) (dict_get (name_abbrs m) k).
Proof.
  revert m. induction cs as [|c cs IH]; intros m; simpl.
  - rewrite app_nil_r, orb_false_r. repeat split.
  - destruct (IH (scan_child m c)) as (IHp & IHu & IHc & IHd).
    destruct (scan_child_spec m c) as (Sp & Su & Sc & Sd).
    rewrite IHp, IHu, IHc, Sp, Su, Sc. repeat split.
    + rewrite <- app_assoc. destruct (keepable c); reflexivity.
    + rewrite orb_assoc. reflexivity.
    + destruct (is_chan c); [|reflexivity].
      rewrite last_opt_cons. destruct (last_opt _); reflexivity.
    + intros k. rewrite IHd, Sd. unfold carried_abbr, abbr_values.
      simpl flat_map. rewrite last_opt_app.
      destruct (last_opt (flat_map _ cs)); reflexivity.
Qed.

Lemma keepable_uid (c : node) : keepable c && is_uid c = is_uid c.
Proof.
  unfold keepable, is_uid. destruct (eqb (tag c) T_UID) eqn:E.
  - apply eqb_eq in E. rewrite E. reflexivity.
  - apply andb_false_r.
Qed.

Lemma keepable_other (c : node) : keepable c && negb (is_uid c) = foreign c.
Proof.
  unfold keepable, is_uid, foreign. simpl.
  destruct (eqb (tag c) NAME), (eqb (tag c) T_LOC), (eqb (tag c) CHAN),
    (eqb (tag c) T_UID); reflexivity.
Qed.

Lemma existsb_filter {A} (f : A -> bool) (l : list A) :
  existsb f l = match filter f l with [] => false | _ => true end.
Proof.
  induction l as [|x l IH]; simpl; [reflexivity|].
  destruct (f x); simpl; [reflexivity | exact IH].
Qed.

Lemma name_node_merged (m : mstate) (cs : list node) (n : name_entry) :
  (forall k, dict_get (name_abbrs m) k = or_else (carried_abbr k cs) None) ->
  name_node (name_abbrs m) n = merged_name cs n.
Proof.
  intros H. unfold name_node, merged_name. rewrite H.
  destruct (carried_abbr (n_name n) cs), (n_period n); reflexivity.
Qed.

(** [update_record] computes the children the specification describes. *)
Lemma update_record_children (fr : fresh) (record : node) (item : yaml_item) :
  children (update_record fr record item) =
  merged_children fr (children record) item.
Proof.
  unfold update_record, merged_children. simpl children.
  destruct (scan_spec (children record) (MState [] [] false None))
    as (Hp & Hu & Hc & Hd).
  simpl in Hp, Hu, Hc, Hd.
  set (m := fold_left scan_child (children record) (MState [] [] false None))
    in *.
  set (cs := children record) in *.
  assert (HU : filter is_uid
                 (if has_uid m then preserved_children m
                  else Node 1 T_UID (uid fr) None [] :: preserved_children m)
               = merged_uids fr cs).
  { rewrite Hu, Hp, existsb_filter. unfold merged_uids.
    destruct (filter is_uid cs) eqn:EF.
    - simpl. rewrite filter_filter.
      rewrite (filter_ext _ _ keepable_uid), EF. reflexivity.
    - rewrite filter_filter, (filter_ext _ _ keepable_uid), EF. reflexivity. }
  assert (HO : filter (fun c => negb (is_uid c))
                 (if has_uid m then preserved_children m
                  else Node 1 T_UID (uid fr) None [] :: preserved_children m)
               = filter foreign cs).
  { rewrite Hp. destruct (has_uid m); simpl;
      rewrite filter_filter; apply filter_ext, keepable_other. }
  rewrite HU, HO.
  assert (HC : (match existing_chan m with
                | Some ch => merged_uids fr cs ++ [ch]
                | None => merged_uids fr cs ++ [create_chan_node fr]
                end) = merged_uids fr cs ++ [merged_chan fr cs]).
  { rewrite Hc. unfold merged_chan.
    destruct (last_opt (filter is_chan cs)); reflexivity. }
  rewrite HC.
  assert (HN : (match names item with
                | Some ns => map (name_node (name_abbrs m)) ns
                | None => []
                end) = merged_names cs item).
  { unfold merged_names. destruct (names item) as [ns|]; [|reflexivity].
    apply map_ext. intros n. apply name_node_merged. exact Hd. }
  rewrite HN. unfold merged_links.
  destruct (parents item); rewrite <- !app_assoc; simpl;
    rewrite ?app_nil_r; reflexivity.
Qed.

(** *** The tags of the parts *)

Lemma merged_uids_tags (fr : fresh) (cs : list node) :
  Forall (fun c => tag c = T_UID) (merged_uids fr cs).
Proof.
  unfold merged_uids.
  assert (H : Forall (fun c => tag c = T_UID) (filter is_uid cs)).
  { apply Forall_forall. intros c Hc. apply filter_In in Hc.
    apply eqb_eq, Hc. }
  destruct (filter is_uid cs); [repeat constructor | exact H].
Qed.

Lemma merged_uids_nonempty (fr : fresh) (cs : list node) :
  merged_uids fr cs <> [].
Proof. unfold merged_uids. destruct (filter is_uid cs); discriminate. Qed.

Lemma last_opt_In {A} (l : list A) (x : A) : last_opt l = Some x -> In x l.
Proof.
  induction l as [|y l IH]; [discriminate|].
  rewrite last_opt_cons. destruct (last_opt l) eqn:E.
  - intros H; right; apply IH; exact H.
  - intros H; left; congruence.
Qed.

Lemma merged_chan_tag (fr : fresh) (cs : list node) :
  tag (merged_chan fr cs) = CHAN.
Proof.
  unfold merged_chan. destruct (last_opt (filter is_chan cs)) eqn:E.
  - apply last_opt_In, filter_In in E. apply eqb_eq, E.
  - reflexivity.
Qed.

Lemma merged_names_tags (cs : list node) (item : yaml_item) :
  Forall (fun c => tag c = NAME) (merged_names cs item).
Proof.
  unfold merged_names. destruct (names item); [|constructor].
  apply Forall_forall. intros c Hc. apply in_map_iff in Hc.
  destruct Hc as (n & <- & _). reflexivity.
Qed.

Lemma merged_links_tags (item : yaml_item) :
  Forall (fun c => tag c = T_LOC) (merged_links item).
Proof.
  unfold merged_links. destruct (parents item); [|constructor].
  apply Forall_forall. intros c Hc. apply in_flat_map in Hc.
  destruct Hc as (p & _ & Hc). unfold loc_nodes in Hc.
  destruct (p_id p) as [[|a pid]|]; simpl in Hc; try contradiction.
  destruct Hc as [<-|[]]. reflexivity.
Qed.

Lemma foreign_tags (cs : list node) :
  Forall (fun c => foreign c = true) (filter foreign cs).
Proof. apply Forall_forall. intros c Hc. apply filter_In in Hc. apply Hc. Qed.

(** Filtering a list whose elements all carry the tag [t]. *)
Lemma filter_tagged (f : node -> bool) (t : str) (b : bool) (l : list node) :
  (forall c, tag c = t -> f c = b) ->
  Forall (fun c => tag c = t) l ->
  filter f l = if b then l else [].
Proof.
  intros Hf Hl. destruct b.
  - apply filter_all. eapply Forall_impl; [|exact Hl]. intros c; apply Hf.
  - apply filter_none. eapply Forall_impl; [|exact Hl]. intros c; apply Hf.
Qed.

(** *** Merging the merged children again *)

Section Again.

Variables (fr : fresh) (cs : list node) (item : yaml_item).

Local Abbreviation cs1 := (merged_children fr cs item).

Lemma again_filter (f : node -> bool) (bu bc bn bl : bool) :
  (forall c, tag c = T_UID -> f c = bu) ->
  (forall c, tag c = CHAN -> f c = bc) ->
  (forall c, tag c = NAME -> f c = bn) ->
  (forall c, tag c = T_LOC -> f c = bl) ->
  filter f cs1 =
  (if bu then merged_uids fr cs else [])
  ++ (if bc then [merged_chan fr cs] else [])
  ++ filter f (filter foreign cs)
  ++ (if bn then merged_names cs item else [])
  ++ (if bl then merged_links item else []).
Proof.
  intros Hu Hc Hn Hl. unfold merged_children.
  rewrite !filter_app.
  rewrite (filter_tagged f _ bu _ Hu (merged_uids_tags fr cs)).
  rewrite (filter_tagged f _ bn _ Hn (merged_names_tags cs item)).
  rewrite (filter_tagged f _ bl _ Hl (merged_links_tags item)).
  f_equal. f_equal.
  simpl. rewrite (Hc _ (merged_chan_tag fr cs)). destruct bc; reflexivity.
Qed.

Lemma again_uids : filter is_uid cs1 = merged_uids fr cs.
Proof.
  rewrite (again_filter is_uid true false false false);
    try (intros c E; unfold is_uid; rewrite E; reflexivity).
  rewrite filter_none; [simpl; apply app_nil_r|].
  eapply Forall_impl; [|apply foreign_tags]. intros c Hc. simpl in Hc.
  rewrite <- keepable_other in Hc. apply andb_true_iff in Hc.
  destruct Hc as [_ Hc]. destruct (is_uid c); [discriminate|reflexivity].
Qed.

Lemma again_chan : filter is_chan cs1 = [merged_chan fr cs].
Proof.
  rewrite (again_filter is_chan false true false false);
    try (intros c E; unfold is_chan; rewrite E; reflexivity).
  rewrite filter_none; [reflexivity|].
  eapply Forall_impl; [|apply foreign_tags]. intros c Hc. simpl in Hc.
  unfold foreign, is_chan in *. simpl in Hc.
  destruct (eqb (tag c) CHAN); [|reflexivity].
  rewrite !orb_true_r in Hc. discriminate.
Qed.

Lemma again_foreign : filter foreign cs1 = filter foreign cs.
Proof.
  rewrite (again_filter foreign false false false false);
    try (intros c E; unfold foreign; rewrite E; reflexivity).
  rewrite (filter_all _ _ (foreign_tags cs)). simpl. apply app_nil_r.
Qed.

Lemma abbr_values_untagged (k : str) (l : list node) :
  Forall (fun c => eqb (tag c) NAME = false) l -> abbr_values k l = [].
Proof.
  induction 1 as [|c l Hc _ IH]; [reflexivity|].
  unfold abbr_values in *. simpl. rewrite IH. unfold abbrs_under.
  rewrite Hc. reflexivity.
Qed.

Lemma abbrs_under_merged (k : str) (n : name_entry) :
  abbrs_under k (merged_name cs n) =
  if eqb (n_name n) k
  then match carried_abbr k cs with Some a => [a] | None => [] end
  else [].
Proof.
  unfold abbrs_under, merged_name. simpl.
  destruct (eqb (n_name n) k) eqn:E; [|reflexivity].
  apply eqb_eq in E. rewrite E.
  destruct (carried_abbr k cs), (n_period n); reflexivity.
Qed.

Lemma abbr_values_merged (k : str) (ns : list name_entry) :
  last_opt (abbr_values k (map (merged_name cs) ns)) =
  if existsb (fun n => eqb (n_name n) k) ns then carried_abbr k cs else None.
Proof.
  induction ns as [|n ns IH]; [reflexivity|].
  unfold abbr_values in *. simpl. rewrite last_opt_app, IH.
  rewrite abbrs_under_merged.
  destruct (eqb (n_name n) k); simpl.
  - destruct (existsb _ ns); destruct (carried_abbr k cs); reflexivity.
  - destruct (existsb _ ns); [destruct (carried_abbr k cs)|]; reflexivity.
Qed.

Lemma again_carried (k : str) (ns : list name_entry) :
  names item = Some ns ->
  existsb (fun n => eqb (n_name n) k) ns = true ->
  carried_abbr k cs1 = carried_abbr k cs.
Proof.
  intros Hns Hk. unfold carried_abbr, merged_children, abbr_values.
  rewrite !flat_map_app.
  fold (abbr_values k (merged_uids fr cs)).
  fold (abbr_values k [merged_chan fr cs]).
  fold (abbr_values k (filter foreign cs)).
  fold (abbr_values k (merged_names cs item)).
  fold (abbr_values k (merged_links item)).
  rewrite (abbr_values_untagged k (merged_uids fr cs)).
  2:{ eapply Forall_impl; [|apply merged_uids_tags].
      intros c E; rewrite E; reflexivity. }
  rewrite (abbr_values_untagged k ([merged_chan fr cs])).
  2:{ constructor; [|constructor]. rewrite merged_chan_tag. reflexivity. }
  rewrite (abbr_values_untagged k (filter foreign cs)).
  2:{ eapply Forall_impl; [|apply foreign_tags]. intros c Hc. simpl in Hc.
      unfold foreign in Hc. simpl in Hc.
      destruct (eqb (tag c) NAME); [discriminate|reflexivity]. }
  rewrite (abbr_values_untagged k (merged_links item)).
  2:{ eapply Forall_impl; [|apply merged_links_tags].
      intros c E; rewrite E; reflexivity. }
  simpl. rewrite app_nil_r. unfold merged_names. rewrite Hns.
  rewrite abbr_values_merged, Hk. reflexivity.
Qed.

Lemma again_names : merged_names cs1 item = merged_names cs item.
Proof.
  unfold merged_names. destruct (names item) as [ns|] eqn:Hns; [|reflexivity].
  apply map_ext_in. intros n Hn. unfold merged_name.
  rewrite (again_carried (n_name n) ns Hns); [reflexivity|].
  apply existsb_exists. exists n. split; [exact Hn | apply eqb_refl].
Qed.

Lemma merged_children_again (fr' : fresh) :
  merged_children fr' cs1 item = cs1.
Proof.
  unfold merged_children at 1.
  unfold merged_uids, merged_chan.
  rewrite again_uids, again_chan, again_foreign, again_names.
  simpl last_opt.
  unfold merged_children.
  pose proof (merged_uids_nonempty fr cs) as Hne.
  destruct (merged_uids fr cs); [congruence | reflexivity].
Qed.

End Again.

End MergeFacts.

Lemma update_record_eq (fr : fresh) (record : node) (item : yaml_item) :
  update_record fr record item =
  with_children record (Merge.merged_children fr (children record) item).
Proof.
  rewrite <- MergeFacts.update_record_children. reflexivity.
Qed.

(* ================================================================== *)
(** ** Claims about [update_record] *)

(** C1. Merging is idempotent: a second [update_record] with the same
    external record returns the node the first call left, whatever unique
    id and clock reading the second call would draw; in particular the
    children, with the change-metadata node and the unique-id node of the
    first call, are the same list. *)
Theorem update_record_idempotent (fr1 fr2 : fresh) (record : node)
  (item : yaml_item) :
  update_record fr2 (update_record fr1 record item) item
    = update_record fr1 record item
  /\ children (update_record fr2 (update_record fr1 record item) item)
     = children (update_record fr1 record item).
Proof.
  assert (H : update_record fr2 (update_record fr1 record item) item
              = update_record fr1 record item).
  { rewrite (update_record_eq fr2), (update_record_eq fr1). simpl children.
    rewrite MergeFacts.merged_children_again. reflexivity. }
  split; [exact H | rewrite H; reflexivity].
Qed.



(** C5. After [update_record] the children are, in this order: the
    unique-id nodes (those found, or the generated one), one
    change-metadata node (the last one found, else a new one), the
    children whose tag is none of NAME, _LOC, CHAN, _UID as they were and
    in their order, one NAME child per entry of [names] in that order,
    one _LOC child per parent with an id in the order of [parents]. *)
Theorem update_record_order (fr : fresh) (record : node) (item : yaml_item) :
  let cs := children record in
  children (update_record fr record item)
    = Merge.merged_uids fr cs ++ [Merge.merged_chan fr cs]
      ++ filter Merge.foreign cs
      ++ Merge.merged_names cs item ++ Merge.merged_links item
  /\ Forall (fun c => tag c = T_UID) (Merge.merged_uids fr cs)
  /\ tag (Merge.merged_chan fr cs) = CHAN
  /\ Forall (fun c => tag c = NAME) (Merge.merged_names cs item)
  /\ map value (Merge.merged_names cs item)
     = map n_name (match names item with Some ns => ns | None => [] end)
  /\ Forall (fun c => tag c = T_LOC) (Merge.merged_links item)
  /\ map value (Merge.merged_links item)
     = map (fun pid => [AT] ++ pid ++ [AT])
         (flat_map (fun p => match p_id p with
                             | Some (c :: pid) => [c :: pid]
                             | _ => []
                             end)
            (match parents item with Some ps => ps | None => [] end)).
Proof.
  intros cs. split; [apply MergeFacts.update_record_children|].
  split; [apply MergeFacts.merged_uids_tags|].
  split; [apply MergeFacts.merged_chan_tag|].
  split; [apply MergeFacts.merged_names_tags|].
  split.
  { unfold Merge.merged_names. destruct (names item) as [ns|]; [|reflexivity].
    rewrite map_map. reflexivity. }
  split; [apply MergeFacts.merged_links_tags|].
  unfold Merge.merged_links. destruct (parents item) as [ps|]; [|reflexivity].
  induction ps as [|p ps IH]; [reflexivity|].
  simpl. rewrite !map_app, IH. f_equal.
  unfold loc_nodes. destruct (p_id p) as [[|c pid]|]; reflexivity.
Qed.

(** C7, as stated, fails: when the NAME child "Springfield" has the ABBR
    sub-children "SPR" and then "SPG", the rebuilt NAME child carries
    "SPG" and no "SPR". *)
Lemma later_abbr_wins :
  existsb (carries Springfield SPR) (children record_two_abbrs) = true
  /\ names springfield_item = Some [NameEntry Springfield None]
  /\ existsb (carries Springfield SPR)
       (children (update_record fresh0 record_two_abbrs springfield_item))
     = false.
Proof. vm_compute. repeat split. Qed.

(** C7, amended. When [abbr] is the value of the last ABBR sub-child
    found under the NAME children valued [name], and [names] has an entry
    [n] for [name], the merged children contain the NAME child rebuilt
    for [n] with the ABBR sub-child [abbr] first, and every NAME child
    valued [name] after the merge carries an ABBR sub-child [abbr]. *)
Theorem abbr_carried_over (fr : fresh) (record : node) (item : yaml_item)
  (name abbr : str) (ns : list name_entry) (n : name_entry) :
  Merge.carried_abbr name (children record) = Some abbr ->
  names item = Some ns -> In n ns -> n_name n = name ->
  In (Node 1 NAME name None
        (Node 2 ABBR abbr None [] :: Merge.opt_node DATE (n_period n)))
     (children (update_record fr record item))
  /\ forall c, In c (children (update_record fr record item)) ->
               tag c = NAME -> value c = name -> carries name abbr c = true.
Proof.
  intros Hab Hns Hn Hname. rewrite MergeFacts.update_record_children.
  unfold Merge.merged_children. split.
  - apply in_or_app; right. apply in_or_app; right. apply in_or_app; right.
    apply in_or_app; left. unfold Merge.merged_names. rewrite Hns.
    apply in_map_iff. exists n. split; [|exact Hn].
    unfold Merge.merged_name. rewrite Hname, Hab. reflexivity.
  - intros c Hc Htag Hval.
    assert (Hin : In c (Merge.merged_names (children record) item)).
    { repeat (apply in_app_or in Hc; destruct Hc as [Hc|Hc]); try exact Hc.
      - pose proof (MergeFacts.merged_uids_tags fr (children record)) as H.
        rewrite Forall_forall in H. apply H in Hc.
        rewrite Htag in Hc. discriminate.
      - destruct Hc as [<-|[]]. rewrite MergeFacts.merged_chan_tag in Htag.
        discriminate.
      - apply filter_In in Hc. destruct Hc as [_ Hc].
        unfold Merge.foreign in Hc. rewrite Htag in Hc. discriminate.
      - pose proof (MergeFacts.merged_links_tags item) as H.
        rewrite Forall_forall in H. apply H in Hc.
        rewrite Htag in Hc. discriminate. }
    unfold Merge.merged_names in Hin. rewrite Hns in Hin.
    apply in_map_iff in Hin. destruct Hin as (n' & <- & _).
    simpl in Hval. unfold carries, Merge.merged_name. simpl.
    rewrite Hval, Hab, eqb_refl. simpl. rewrite eqb_refl. reflexivity.
Qed.

Lemma abbr_carried_over_witness :
  carries Springfield SPR
    (Node 1 NAME Springfield None [Node 2 ABBR SPR None []]) = true
  /\ In (Node 1 NAME Springfield None [Node 2 ABBR SPR None []])
        (children (update_record fresh0 record_one_abbr springfield_item)).
Proof.
  split; [reflexivity|].
  apply (abbr_carried_over fresh0 record_one_abbr springfield_item
           Springfield SPR [NameEntry Springfield None]
           (NameEntry Springfield None));
    [reflexivity | reflexivity | left; reflexivity | reflexivity].
Defined.

(* ================================================================== *)
(** ** Claims about the parser loop *)

Lemma parse_loop_app (s : pstate) (a b : list str) :
  parse_loop s (a ++ b) = (s' <- parse_loop s a ;; parse_loop s' b).
Proof.
  revert s. induction a as [|l a IH]; intros s; simpl; [reflexivity|].
  destruct (parse_line s l) as [s1|e]; simpl; [apply IH | reflexivity].
Qed.

Lemma pop_while_all (lvl : Z) (st : list (Z * path)) :
  Forall (fun e => lvl <= fst e) st -> pop_while lvl st = [].
Proof.
  induction 1 as [|[l p] st Hl _ IH]; simpl; [reflexivity|].
  simpl in Hl. destruct (Z.geb_spec l lvl); [exact IH | lia].
Qed.

(** C8. A line that tokenizes to level 0, tag _LOC, no cross-reference
    id and a value that starts and ends with "@" leaves the loop state as
    it was: no record, no entry of the index, no change of the stack, no
    exception; a file parses as it does without the line. *)
Theorem garbage_line_dropped (s : pstate) (line v : str) :
  tokenize line = Ok (Some (Token 0 None T_LOC v)) ->
  startswith v AT = true -> endswith v AT = true ->
  parse_line s line = Ok s
  /\ forall before after,
       parse_gedcom_lines (before ++ line :: after)
       = parse_gedcom_lines (before ++ after).
Proof.
  intros Ht Hs He.
  assert (H : forall s0, parse_line s0 line = Ok s0).
  { intros s0. unfold parse_line. rewrite Ht. simpl.
    unfold place, is_garbage. simpl. rewrite Hs, He. reflexivity. }
  split; [apply H|].
  intros before after. unfold parse_gedcom_lines.
  rewrite !parse_loop_app.
  destruct (parse_loop _ before) as [s1|e]; simpl; [|reflexivity].
  rewrite H. reflexivity.
Qed.

Lemma garbage_line_dropped_witness :
  parse_line (PState [] [] []) (lit "0 _LOC @L1@") = Ok (PState [] [] []).
Proof.
  apply (garbage_line_dropped (PState [] [] []) (lit "0 _LOC @L1@")
           (lit "@L1@")); reflexivity.
Defined.

(** C9. A line of level above 0 that finds no ancestor of smaller level
    on the stack (the stack is empty, or every entry has a level at least
    the line's) raises nothing and changes neither the records nor the
    index: its node is attached nowhere.  The stack is left empty and the
    loop goes on with the next line. *)
Theorem orphan_line_dropped (s : pstate) (line : str) (t : token) :
  tokenize line = Ok (Some t) ->
  0 < t_level t ->
  Forall (fun e => t_level t <= fst e) (stack s) ->
  parse_line s line = Ok (PState (all_records s) (id_map s) [])
  /\ forall rest,
       parse_loop s (line :: rest)
       = parse_loop (PState (all_records s) (id_map s) []) rest.
Proof.
  intros Ht Hl Hst.
  assert (H : parse_line s line = Ok (PState (all_records s) (id_map s) [])).
  { unfold parse_line. rewrite Ht. simpl. unfold place, is_garbage.
    destruct (Z.eqb_spec (t_level t) 0) as [E|E]; [lia|]. simpl.
    rewrite (pop_while_all _ _ Hst). reflexivity. }
  split; [exact H|]. intros rest. simpl. rewrite H. reflexivity.
Qed.

Lemma orphan_line_dropped_witness :
  parse_gedcom_lines [lit "1 NAME x"; lit "0 HEAD"]
  = parse_gedcom_lines [lit "0 HEAD"].
Proof.
  unfold parse_gedcom_lines.
  rewrite (proj2 (orphan_line_dropped (PState [] [] []) (lit "1 NAME x")
                    (Token 1 None NAME (lit "x"))
                    eq_refl eq_refl (Forall_nil _))).
  reflexivity.
Defined.

(** C10 fails on the code: a line that holds a level and nothing else
    reaches [parts[1]] with a one-element list, and the IndexError is not
    caught. *)
Theorem level_only_line_raises :
  parse_gedcom_lines [lit "0"] = Raise IndexError
  /\ parse_gedcom (Some (lit "0 HEAD
1
0 TRLR
")) = Raise IndexError.
Proof. split; reflexivity. Qed.

(* ================================================================== *)
(** ** Claims about [main] *)












(* ================================================================== *)
(** ** The round trip: strings *)

Module StrFacts.

Lemma chr_eqb_eq (a b : ascii) : chr_eqb a b = true <-> a = b.
Proof. apply Ascii.eqb_eq. Qed.

Lemma chr_eqb_neq (a b : ascii) : chr_eqb a b = false <-> a <> b.
Proof. apply Ascii.eqb_neq. Qed.

Lemma lstrip_by_headok (f : ascii -> bool) (s : str) :
  headok f (lstrip_by f s).
Proof.
  induction s as [|c s IH]; simpl; [exact I|].
  destruct (f c) eqn:E; [exact IH | exact E].
Qed.

Lemma lstrip_by_id (f : ascii -> bool) (s : str) :
  headok f s -> lstrip_by f s = s.
Proof. destruct s as [|c s]; simpl; [reflexivity|]. intros ->. reflexivity. Qed.

Lemma lstrip_by_all (f : ascii -> bool) (s : str) :
  forallb f s = true -> lstrip_by f s = [].
Proof.
  induction s as [|c s IH]; simpl; [reflexivity|].
  destruct (f c); simpl; [exact IH | discriminate].
Qed.

Lemma lstrip_by_app (f : ascii -> bool) (a b : str) :
  lstrip_by f (a ++ b) =
  if forallb f a then lstrip_by f b else lstrip_by f a ++ b.
Proof.
  induction a as [|c a IH]; simpl; [reflexivity|].
  destruct (f c); simpl; [exact IH | reflexivity].
Qed.

Lemma Forall_lstrip_by (P : ascii -> Prop) (f : ascii -> bool) (s : str) :
  Forall P s -> Forall P (lstrip_by f s).
Proof.
  induction 1 as [|c s Hc Hs IH]; simpl; [constructor|].
  destruct (f c); [exact IH | constructor; assumption].
Qed.

Lemma forallb_rev {A} (f : A -> bool) (l : list A) :
  forallb f (rev l) = forallb f l.
Proof.
  induction l as [|x l IH]; simpl; [reflexivity|].
  rewrite forallb_app, IH. simpl. rewrite andb_true_r. apply andb_comm.
Qed.

Lemma strip_by_trimmed (f : ascii -> bool) (s : str) :
  trimmed f (strip_by f s).
Proof.
  unfold trimmed, strip_by. rewrite rev_involutive. split.
  2: apply lstrip_by_headok.
  pose proof (lstrip_by_headok f s) as H0.
  set (x := lstrip_by f s) in *.
  (* [rev x = ws ++ lstrip (rev x)], hence [x = rev (lstrip (rev x)) ++ rev ws] *)
  assert (Hsuf : exists ws, rev x = ws ++ lstrip_by f (rev x)).
  { generalize (rev x). intros y. induction y as [|c y IH]; simpl.
    - exists []. reflexivity.
    - destruct (f c).
      + destruct IH as [ws Hws]. exists (c :: ws). simpl. congruence.
      + exists []. reflexivity. }
  destruct Hsuf as [ws Hws].
  assert (Hx : x = rev (lstrip_by f (rev x)) ++ rev ws).
  { rewrite <- rev_app_distr, <- Hws, rev_involutive. reflexivity. }
  destruct (rev (lstrip_by f (rev x))) as [|c y] eqn:E; [exact I|].
  rewrite Hx in H0. exact H0.
Qed.

Lemma strip_by_id (f : ascii -> bool) (s : str) :
  trimmed f s -> strip_by f s = s.
Proof.
  intros [H1 H2]. unfold strip_by.
  rewrite (lstrip_by_id f s H1), (lstrip_by_id f _ H2).
  apply rev_involutive.
Qed.

Lemma strip_by_app (f : ascii -> bool) (s ws : str) :
  forallb f ws = true -> strip_by f (s ++ ws) = strip_by f s.
Proof.
  intros Hws. unfold strip_by. rewrite lstrip_by_app.
  destruct (forallb f s) eqn:Es.
  - rewrite (lstrip_by_all f ws Hws), (lstrip_by_all f s Es). reflexivity.
  - rewrite rev_app_distr, lstrip_by_app, forallb_rev, Hws. reflexivity.
Qed.

Lemma Forall_strip_by (P : ascii -> Prop) (f : ascii -> bool) (s : str) :
  Forall P s -> Forall P (strip_by f s).
Proof.
  intros H. unfold strip_by.
  apply Forall_rev, Forall_lstrip_by, Forall_rev, Forall_lstrip_by, H.
Qed.

(** A trimmed string does not end with the separator. *)
Lemma trimmed_tail (a b : str) :
  headok isspace (rev (a ++ SP :: b)) ->
  b <> [] /\ headok isspace (rev b).
Proof.
  rewrite rev_app_distr. simpl. rewrite <- app_assoc. simpl.
  destruct b as [|c b].
  - simpl. intros H. discriminate.
  - intros H. split; [discriminate|].
    destruct (rev (c :: b)) as [|d r] eqn:E.
    + apply (f_equal (@length _)) in E. rewrite length_rev in E.
      discriminate.
    + exact H.
Qed.

Lemma headok_app (f : ascii -> bool) (a b : str) :
  a <> [] -> headok f a -> headok f (a ++ b).
Proof. destruct a; [congruence | intros _ H; exact H]. Qed.

(** *** [cut] and [split] *)

Lemma cut_Some (s a b : str) :
  cut s = Some (a, b) -> s = a ++ SP :: b /\ ~ In SP a.
Proof.
  revert a. induction s as [|c s IH]; intros a; simpl; [discriminate|].
  destruct (chr_eqb c SP) eqn:E.
  - apply chr_eqb_eq in E. subst c. intros H; inversion H; subst.
    split; [reflexivity | intros []].
  - destruct (cut s) as [[a' b']|]; [|discriminate].
    intros H; inversion H; subst. destruct (IH a' eq_refl) as [-> Hn].
    split; [reflexivity|]. intros [Hc|Hc]; [|exact (Hn Hc)].
    subst c. apply chr_eqb_neq in E. congruence.
Qed.

Lemma cut_None (s : str) : cut s = None -> ~ In SP s.
Proof.
  induction s as [|c s IH]; simpl; [intros _ []|].
  destruct (chr_eqb c SP) eqn:E; [discriminate|].
  destruct (cut s) as [[a b]|]; [discriminate|].
  intros _ [Hc|Hc]; [|exact (IH eq_refl Hc)].
  subst c. apply chr_eqb_neq in E. congruence.
Qed.

Lemma cut_app (a b : str) : ~ In SP a -> cut (a ++ SP :: b) = Some (a, b).
Proof.
  induction a as [|c a IH]; simpl; intros H.
  - reflexivity.
  - destruct (chr_eqb c SP) eqn:E.
    + apply chr_eqb_eq in E. subst c. exfalso. apply H. left. reflexivity.
    + rewrite IH; [reflexivity|]. intros Hi. apply H. right. exact Hi.
Qed.

Lemma split_app (k : nat) (a b : str) :
  ~ In SP a -> split (S k) (a ++ SP :: b) = a :: split k b.
Proof. intros H. simpl. rewrite (cut_app a b H). reflexivity. Qed.

End StrFacts.

(* ================================================================== *)
(** ** The round trip: [int(str(n))] *)

Module IntFacts.

Import StrFacts.

Lemma numeric_plain (c : ascii) :
  numeric c = true ->
  isspace c = false /\ c <> SP /\ c <> LF /\ c <> CR.
Proof.
  destruct c as [[] [] [] [] [] [] [] []]; vm_compute;
    intros H; try discriminate H; repeat split; discriminate.
Qed.

Lemma int_digits_uint (d : Decimal.uint) :
  forall acc b, (d <> Decimal.Nil \/ b = true) ->
  int_digits acc b (str_of_uint d) = Some (uint_val acc d).
Proof.
  induction d; intros acc b H; simpl;
    try (apply IHd; right; reflexivity).
  destruct H as [H| ->]; [congruence | reflexivity].
Qed.

Lemma of_uint_acc_val (d : Decimal.uint) :
  forall acc, Z.pos (Pos.of_uint_acc d acc) = uint_val (Z.pos acc) d.
Proof.
  induction d; intros acc; cbn [Pos.of_uint_acc uint_val];
    try rewrite IHd; try reflexivity; f_equal; lia.
Qed.

Lemma of_uint_val (d : Decimal.uint) : Z.of_uint d = uint_val 0 d.
Proof.
  unfold Z.of_uint.
  induction d; cbn [Pos.of_uint uint_val Z.of_N]; try reflexivity;
    try exact IHd; rewrite of_uint_acc_val; reflexivity.
Qed.

Lemma str_of_uint_numeric (d : Decimal.uint) :
  forallb numeric (str_of_uint d) = true.
Proof. induction d; simpl; try rewrite IHd; reflexivity. Qed.

Lemma str_of_int_numeric (n : Z) : forallb numeric (str_of_int n) = true.
Proof.
  unfold str_of_int. destruct (Z.to_int n); simpl;
    apply str_of_uint_numeric.
Qed.

Lemma str_of_int_nonempty (n : Z) : str_of_int n <> [].
Proof.
  unfold str_of_int. destruct n as [|p|p]; simpl; try discriminate.
  pose proof (DecimalPos.Unsigned.to_uint_nonnil p) as H.
  destruct (Pos.to_uint p); simpl; congruence.
Qed.

Lemma numeric_Forall (P : ascii -> Prop) (s : str) :
  (forall c, numeric c = true -> P c) ->
  forallb numeric s = true -> Forall P s.
Proof.
  intros HP H. apply Forall_forall. intros c Hc.
  apply HP. rewrite forallb_forall in H. apply H, Hc.
Qed.

Lemma numeric_trimmed (s : str) :
  forallb numeric s = true -> trimmed isspace s.
Proof.
  intros H. split.
  - destruct s as [|c s]; [exact I|]. simpl in *.
    apply andb_true_iff in H. apply numeric_plain, H.
  - rewrite <- forallb_rev in H. destruct (rev s) as [|c r]; [exact I|].
    simpl in *. apply andb_true_iff in H. apply numeric_plain, H.
Qed.

Lemma str_of_int_nosp (n : Z) : ~ In SP (str_of_int n).
Proof.
  intros H. pose proof (str_of_int_numeric n) as Hn.
  rewrite forallb_forall in Hn. apply Hn, numeric_plain in H.
  destruct H as (_ & H & _). congruence.
Qed.

Lemma first_digit (d : Decimal.uint) :
  d <> Decimal.Nil ->
  exists c s, str_of_uint d = c :: s
              /\ chr_eqb c "+"%char = false /\ chr_eqb c "-"%char = false.
Proof.
  destruct d; intros H; try congruence; simpl;
    eexists; eexists; repeat split.
Qed.

(** [int(str(n)) == n] *)
Lemma int_str_of_int (n : Z) : int (str_of_int n) = Some n.
Proof.
  unfold int, strip.
  rewrite (strip_by_id _ _ (numeric_trimmed _ (str_of_int_numeric n))).
  pose proof (DecimalZ.of_to n) as Hn.
  unfold str_of_int, Z.of_int in *.
  destruct (Z.to_int n) as [d|d] eqn:E.
  - assert (Hd : d <> Decimal.Nil).
    { destruct n as [|p|p]; simpl in E; inversion E; subst.
      - discriminate.
      - apply DecimalPos.Unsigned.to_uint_nonnil. }
    destruct (first_digit d Hd) as (c & s & Hs & Hp & Hm).
    rewrite Hs, Hp, Hm, <- Hs.
    rewrite int_digits_uint by (left; exact Hd).
    rewrite <- of_uint_val, Hn. reflexivity.
  - assert (Hd : d <> Decimal.Nil).
    { destruct n as [|p|p]; simpl in E; inversion E; subst.
      apply DecimalPos.Unsigned.to_uint_nonnil. }
    change (chr_eqb "-"%char "+"%char) with false.
    change (chr_eqb "-"%char "-"%char) with true. cbv iota.
    rewrite int_digits_uint by (left; exact Hd).
    rewrite <- of_uint_val. simpl. rewrite Hn. reflexivity.
Qed.

End IntFacts.

(* ================================================================== *)
(** ** The round trip: one line *)

Module LineFacts.

Import StrFacts IntFacts.

Lemma tokenize_unfold (line : str) :
  tokenize line =
  match strip line with
  | [] => Ok None
  | _ => tok_of_parts (split 2 (strip line))
  end.
Proof. unfold tokenize. destruct (strip line); reflexivity. Qed.

Lemma tok_of_parts_level (p0 p0' : str) (rest : list str) :
  int p0 = int p0' -> tok_of_parts (p0 :: rest) = tok_of_parts (p0' :: rest).
Proof. intros H. unfold tok_of_parts. simpl. rewrite H. reflexivity. Qed.

Lemma serialize_record_eq (n : node) :
  serialize_record n
  = join [LF] (header n :: map serialize_record (children n)).
Proof. destruct n; reflexivity. Qed.

Lemma startswith_cons (s : str) (c : ascii) :
  startswith s c = true -> exists x, s = c :: x.
Proof.
  destruct s as [|d x]; simpl; [discriminate|].
  intros H. apply chr_eqb_eq in H. subst. exists x. reflexivity.
Qed.

Ltac list_norm :=
  simpl; rewrite ?app_nil_r; repeat (rewrite <- app_assoc; simpl);
  reflexivity.

(** What a line that yields a token looks like, and what is rendered for
    the token: the level as [str()] prints it, then the text that
    followed the level, then at most one space. *)
Lemma token_line (line : str) (t : token) :
  tokenize line = Ok (Some t) ->
  exists p0 tl pad,
    strip line = p0 ++ SP :: tl
    /\ ~ In SP p0
    /\ int p0 = Some (t_level t)
    /\ tl <> [] /\ headok isspace (rev tl)
    /\ header (node_of t) = (str_of_int (t_level t) ++ SP :: tl) ++ pad
    /\ (pad = [] \/ pad = [SP]).
Proof.
  intros H. rewrite tokenize_unfold in H.
  destruct (strip_by_trimmed isspace line) as [_ Ht].
  fold (strip line) in Ht.
  destruct (strip line) as [|c0 s0] eqn:Es; [discriminate|].
  remember (c0 :: s0) as st eqn:Est. clear Est Es c0 s0.
  cbn [split] in H.
  destruct (cut st) as [[p0 r1]|] eqn:Ec.
  2:{ unfold tok_of_parts in H. simpl in H.
      destruct (int st); discriminate. }
  apply cut_Some in Ec. destruct Ec as [-> Hn0].
  destruct (trimmed_tail _ _ Ht) as [Hr1 Hh1].
  exists p0, r1.
  destruct (cut r1) as [[p1 r2]|] eqn:Ec1.
  - apply cut_Some in Ec1. destruct Ec1 as [-> Hn1].
    destruct (trimmed_tail _ _ Hh1) as [Hr2 Hh2].
    unfold tok_of_parts in H. simpl in H.
    destruct (int p0) as [lvl|] eqn:Ei; [|discriminate].
    destruct (startswith p1 AT && endswith p1 AT) eqn:Ex.
    + apply andb_true_iff in Ex. destruct Ex as [Ex _].
      apply startswith_cons in Ex. destruct Ex as [x ->].
      destruct (cut r2) as [[tg vl]|] eqn:Ec2.
      * apply cut_Some in Ec2. destruct Ec2 as [-> Hn2].
        destruct (trimmed_tail _ _ Hh2) as [Hv _].
        simpl in H. inversion H; subst t; clear H.
        exists []. repeat split; auto.
        unfold header, node_of. simpl.
        destruct vl as [|v vl]; [congruence|].
        list_norm.
      * simpl in H. inversion H; subst t; clear H.
        exists []. repeat split; auto.
        unfold header, node_of. simpl.
        list_norm.
    + simpl in H. inversion H; subst t; clear H.
      exists []. repeat split; auto.
      unfold header, node_of. simpl.
      destruct r2 as [|v r2]; [congruence|].
      list_norm.
  - unfold tok_of_parts in H. simpl in H.
    destruct (int p0) as [lvl|] eqn:Ei; [|discriminate].
    destruct (startswith r1 AT && endswith r1 AT) eqn:Ex.
    + apply andb_true_iff in Ex. destruct Ex as [Ex _].
      apply startswith_cons in Ex. destruct Ex as [x ->].
      simpl in H. inversion H; subst t; clear H.
      exists [SP]. repeat split; auto.
      unfold header, node_of. simpl.
      list_norm.
    + simpl in H. inversion H; subst t; clear H.
      exists []. repeat split; auto.
      unfold header, node_of. simpl.
      list_norm.
Qed.

Lemma tokenize_stripped (line s : str) :
  strip line = s -> s <> [] -> tokenize line = tok_of_parts (split 2 s).
Proof.
  intros <- Hs. rewrite tokenize_unfold.
  destruct (strip line); [congruence | reflexivity].
Qed.

(** The rendered line, read back, yields the token again. *)
Lemma retokenize (line : str) (t : token) :
  tokenize line = Ok (Some t) ->
  tokenize (header (node_of t) ++ [LF]) = Ok (Some t).
Proof.
  intros H.
  destruct (token_line line t H)
    as (p0 & tl & pad & Hs & Hn0 & Hi & Htl & Hh & Hhd & Hpad).
  set (L := str_of_int (t_level t)) in *.
  assert (Hx : trimmed isspace (L ++ SP :: tl)).
  { split.
    - apply headok_app; [apply str_of_int_nonempty|].
      apply (numeric_trimmed _ (str_of_int_numeric (t_level t))).
    - rewrite rev_app_distr. simpl. rewrite <- app_assoc.
      apply headok_app; [|exact Hh].
      intros E. apply Htl. apply (f_equal (@rev _)) in E.
      rewrite rev_involutive in E. exact E. }
  assert (Hne : L ++ SP :: tl <> []).
  { destruct L; discriminate. }
  assert (Hstrip : strip (header (node_of t) ++ [LF]) = L ++ SP :: tl).
  { rewrite Hhd, <- app_assoc. unfold strip.
    rewrite strip_by_app.
    - apply strip_by_id, Hx.
    - destruct Hpad as [-> | ->]; reflexivity. }
  rewrite (tokenize_stripped _ _ Hstrip Hne).
  rewrite (split_app 1 L tl (str_of_int_nosp (t_level t))).
  rewrite (tok_of_parts_level L p0).
  2:{ unfold L. rewrite int_str_of_int, Hi. reflexivity. }
  rewrite <- (split_app 1 p0 tl Hn0).
  rewrite <- H. symmetry. apply tokenize_stripped; [exact Hs|].
  destruct p0; discriminate.
Qed.

Lemma header_nobreak (line : str) (t : token) :
  tokenize line = Ok (Some t) ->
  nobreak (strip line) -> nobreak (header (node_of t)).
Proof.
  intros H Hnb.
  destruct (token_line line t H)
    as (p0 & tl & pad & Hs & _ & _ & _ & _ & Hhd & Hpad).
  rewrite Hs in Hnb. apply Forall_app in Hnb. destruct Hnb as [_ Hnb].
  unfold nobreak. rewrite Hhd. apply Forall_app. split.
  - apply Forall_app. split; [|exact Hnb].
    apply numeric_Forall; [|apply str_of_int_numeric].
    intros c Hc. apply numeric_plain in Hc. tauto.
  - destruct Hpad as [-> | ->]; [constructor|].
    constructor; [|constructor].
    split; intros E; vm_compute in E; discriminate.
Qed.

End LineFacts.

(* ================================================================== *)
(** ** The round trip: the lines of a text *)

Module TextFacts.

Import StrFacts LineFacts.

Lemma universal_newlines_no_cr (s : str) :
  Forall (fun c => c <> CR) (universal_newlines s).
Proof.
  assert (H : forall n s, (length s <= n)%nat ->
                          Forall (fun c => c <> CR) (universal_newlines s)).
  { clear s. induction n as [|n IH]; intros s Hn.
    - destruct s; [constructor | simpl in Hn; lia].
    - destruct s as [|c s]; [constructor|]. simpl in Hn. simpl.
      destruct (chr_eqb c CR) eqn:E.
      + destruct s as [|c' s].
        * constructor; [discriminate | constructor].
        * simpl in Hn. destruct (chr_eqb c' LF);
            (constructor; [discriminate | apply IH; simpl; lia]).
      + constructor; [apply chr_eqb_neq, E | apply IH; lia]. }
  apply (H (length s)). lia.
Qed.

Lemma universal_newlines_id (s : str) :
  Forall (fun c => c <> CR) s -> universal_newlines s = s.
Proof.
  induction 1 as [|c s Hc _ IH]; simpl; [reflexivity|].
  apply chr_eqb_neq in Hc. rewrite Hc, IH. reflexivity.
Qed.

Lemma readlines_lines (s : str) :
  Forall (fun c => c <> CR) s -> Forall is_line (readlines s).
Proof.
  induction 1 as [|c s Hc _ IH]; simpl; [constructor|].
  destruct (chr_eqb c LF) eqn:E.
  - apply chr_eqb_eq in E. subst c. constructor; [|exact IH].
    exists []. split; [right; reflexivity | constructor].
  - apply chr_eqb_neq in E. destruct (readlines s) as [|l ls].
    + constructor; [|constructor]. exists [c].
      split; [left; reflexivity | repeat constructor; assumption].
    + inversion IH as [|? ? Hl Hls]; subst. constructor; [|exact Hls].
      destruct Hl as (body & Hb & Hnb). exists (c :: body). split.
      * destruct Hb as [-> | ->]; [left | right]; reflexivity.
      * constructor; [split; assumption | exact Hnb].
Qed.

Lemma is_line_strip (l : str) : is_line l -> nobreak (strip l).
Proof.
  intros (body & Hb & Hnb). unfold strip. destruct Hb as [-> | ->].
  - apply Forall_strip_by, Hnb.
  - rewrite strip_by_app by reflexivity. apply Forall_strip_by, Hnb.
Qed.

Lemma readlines_line (l rest : str) :
  ~ In LF l -> readlines (l ++ LF :: rest) = (l ++ [LF]) :: readlines rest.
Proof.
  induction l as [|c l IH]; intros H; simpl.
  - reflexivity.
  - destruct (chr_eqb c LF) eqn:E.
    + apply chr_eqb_eq in E. exfalso. apply H. left. exact E.
    + rewrite IH; [reflexivity|]. intros Hi. apply H. right. exact Hi.
Qed.

Lemma readlines_concat (ls : list str) :
  Forall (fun l => ~ In LF l) ls ->
  readlines (concat (map (fun l => l ++ [LF]) ls))
  = map (fun l => l ++ [LF]) ls.
Proof.
  induction 1 as [|l ls Hl _ IH]; simpl; [reflexivity|].
  rewrite <- app_assoc. simpl. rewrite (readlines_line l _ Hl), IH.
  reflexivity.
Qed.

Lemma nobreak_no_lf (s : str) : nobreak s -> ~ In LF s.
Proof.
  intros H Hi. unfold nobreak in H. rewrite Forall_forall in H.
  destruct (H _ Hi) as [E _]. congruence.
Qed.

Lemma nobreak_text (ls : list str) :
  Forall nobreak ls ->
  Forall (fun c => c <> CR) (concat (map (fun l => l ++ [LF]) ls)).
Proof.
  induction 1 as [|l ls Hl _ IH]; simpl; [constructor|].
  apply Forall_app. split; [|exact IH].
  apply Forall_app. split.
  - eapply Forall_impl; [|exact Hl]. intros c Hc. apply Hc.
  - constructor; [|constructor]. intros E. vm_compute in E. discriminate.
Qed.

(** *** The loop as a fold over the tokens *)

Lemma parse_loop_tokens (lines : list str) (s : pstate) :
  parse_loop s lines = (ts <- tokens lines ;; Ok (fold_left place ts s)).
Proof.
  revert s. induction lines as [|line rest IH]; intros s; simpl.
  - reflexivity.
  - unfold parse_line. destruct (tokenize line) as [[t|]|e]; simpl.
    + rewrite IH. destruct (tokens rest); reflexivity.
    + rewrite IH. destruct (tokens rest); reflexivity.
    + reflexivity.
Qed.

Lemma tokens_good (lines : list str) (ts : list token) :
  Forall is_line lines -> tokens lines = Ok ts -> Forall good_token ts.
Proof.
  intros Hl. revert ts. induction Hl as [|line rest Hline _ IH]; intros ts.
  - simpl. intros H; inversion H. constructor.
  - simpl. destruct (tokenize line) as [tk|e] eqn:Et; simpl; [|discriminate].
    destruct (tokens rest) as [ts'|e]; simpl; [|discriminate].
    intros H; inversion H; subst; clear H.
    specialize (IH ts' eq_refl).
    destruct tk as [t|]; [|exact IH].
    constructor; [|exact IH]. split.
    + apply (header_nobreak line t Et), is_line_strip, Hline.
    + apply (retokenize line t Et).
Qed.

Lemma tokens_rendered (ts : list token) :
  Forall good_token ts ->
  tokens (map (fun t => header (node_of t) ++ [LF]) ts) = Ok ts.
Proof.
  induction 1 as [|t ts [_ Ht] _ IH]; simpl; [reflexivity|].
  rewrite Ht, IH. reflexivity.
Qed.

End TextFacts.

(* ================================================================== *)
(** ** The round trip: the forest and the stack *)

Module ForestFacts.

Import StrFacts LineFacts TextFacts.

Lemma alter_last {A} (f : A -> A) (xs : list A) (x : A) :
  alter f (length xs) (xs ++ [x]) = xs ++ [f x].
Proof. induction xs as [|y xs IH]; simpl; [|rewrite IH]; reflexivity. Qed.

Lemma nth_error_last {A} (xs : list A) (x : A) :
  nth_error (xs ++ [x]) (length xs) = Some x.
Proof. induction xs as [|y xs IH]; simpl; [reflexivity | exact IH]. Qed.

Lemma rightmost_new (nd : node) (p : path) :
  forall rs, rightmost p rs ->
  rightmost (p ++ [length (kids p rs)]) (append_at p nd rs).
Proof.
  induction p as [|i p IH]; intros rs H; simpl.
  - exists rs, nd. repeat split.
  - destruct H as (cs0 & n & -> & -> & Hr).
    rewrite nth_error_last, alter_last.
    exists cs0, (with_children n (append_at p nd (children n))).
    repeat split. simpl. apply IH, Hr.
Qed.

Lemma rightmost_prefix (nd : node) (q : path) :
  forall p rs, rightmost p rs -> prefix_of q p ->
  rightmost q (append_at p nd rs).
Proof.
  induction q as [|i q IH]; intros p rs Hr [r Hp]; simpl; [exact I|].
  subst p. simpl in Hr. destruct Hr as (cs0 & n & -> & -> & Hr).
  simpl. rewrite alter_last.
  exists cs0, (with_children n (append_at (q ++ r) nd (children n))).
  repeat split. simpl. apply IH; [exact Hr | exists r; reflexivity].
Qed.

(** *** The text of a forest *)

Lemma write_records_app (a b : list node) :
  write_records (a ++ b) = write_records a ++ write_records b.
Proof. unfold write_records. rewrite map_app, concat_app. reflexivity. Qed.

Lemma join_lines (ls : list str) :
  forall h, join [LF] (h :: ls) ++ [LF]
            = h ++ LF :: concat (map (fun l => l ++ [LF]) ls).
Proof.
  induction ls as [|l ls IH]; intros h.
  - reflexivity.
  - change (join [LF] (h :: l :: ls)) with (h ++ [LF] ++ join [LF] (l :: ls)).
    rewrite <- !app_assoc, (IH l). simpl. rewrite <- app_assoc. reflexivity.
Qed.

Lemma serialize_record_lf (n : node) :
  serialize_record n ++ [LF] = header n ++ LF :: write_records (children n).
Proof.
  rewrite serialize_record_eq, join_lines. unfold write_records.
  rewrite map_map. reflexivity.
Qed.

Lemma write_records_one (n : node) :
  write_records [n] = header n ++ LF :: write_records (children n).
Proof.
  unfold write_records at 1. simpl. rewrite app_nil_r.
  apply serialize_record_lf.
Qed.

Lemma header_with_children (n : node) (cs : list node) :
  header (with_children n cs) = header n.
Proof. reflexivity. Qed.

Lemma write_append_at (nd : node) (p : path) :
  forall rs, rightmost p rs ->
  write_records (append_at p nd rs)
  = write_records rs ++ serialize_record nd ++ [LF].
Proof.
  induction p as [|i p IH]; intros rs H; simpl.
  - rewrite write_records_app. unfold write_records at 2. simpl.
    rewrite app_nil_r. reflexivity.
  - destruct H as (cs0 & n & -> & -> & Hr).
    rewrite alter_last, !write_records_app, !write_records_one.
    rewrite header_with_children. simpl children.
    rewrite (IH _ Hr), <- !app_assoc. simpl. reflexivity.
Qed.

(** *** The stack refers to the rightmost branch *)

Lemma stack_ok_pop (rs : list node) (lvl : Z) (stk : list (Z * path)) :
  stack_ok rs stk -> stack_ok rs (pop_while lvl stk).
Proof.
  induction stk as [|[l p] stk IH]; simpl; [trivial|].
  intros H. destruct (l >=? lvl); [apply IH, H | exact H].
Qed.

Lemma stack_ok_append (nd : node) (p : path) (rs : list node)
  (stk : list (Z * path)) :
  rightmost p rs ->
  Forall (fun e => prefix_of (snd e) p) stk ->
  stack_ok rs stk -> stack_ok (append_at p nd rs) stk.
Proof.
  intros Hp. induction stk as [|[l q] stk IH]; simpl; [trivial|].
  intros Hpre (Hq & Hall & Hok). inversion Hpre; subst.
  split; [apply rightmost_prefix; assumption|].
  split; [exact Hall | apply IH; assumption].
Qed.

Lemma prefix_of_app (q p r : path) : prefix_of q p -> prefix_of q (p ++ r).
Proof. intros [x ->]. exists (x ++ r). apply eq_sym, app_assoc. Qed.

Lemma prefix_of_refl (p : path) : prefix_of p p.
Proof. exists []. apply eq_sym, app_nil_r. Qed.

(** *** Tokens that leave a node in the forest *)

Lemma node_of_lf (t : token) :
  serialize_record (node_of t) ++ [LF] = header (node_of t) ++ [LF].
Proof. rewrite serialize_record_lf. reflexivity. Qed.

Lemma place_placed (s : pstate) (t : token) :
  invariant s -> placed s t = true ->
  invariant (place s t)
  /\ write_records (all_records (place s t))
     = write_records (all_records s) ++ header (node_of t) ++ [LF].
Proof.
  unfold invariant, placed, place. intros Hinv Hp.
  apply andb_true_iff in Hp. destruct Hp as [Hg Hp].
  apply negb_true_iff in Hg. rewrite Hg.
  fold (node_of t).
  destruct (t_level t =? 0) eqn:E0; simpl.
  - split.
    + split; [|split; [constructor | exact I]].
      exists (all_records s), (node_of t). repeat split.
    + rewrite write_records_app, write_records_one. reflexivity.
  - simpl in Hp.
    pose proof (stack_ok_pop (all_records s) (t_level t) (stack s) Hinv) as Hk.
    destruct (pop_while (t_level t) (stack s)) as [|[lp p] st'];
      [discriminate|].
    simpl in Hk. destruct Hk as (Hr & Hall & Hok). simpl. split.
    + split; [apply rightmost_new, Hr|]. split.
      * constructor; [apply prefix_of_app, prefix_of_refl|].
        eapply Forall_impl; [|exact Hall].
        intros e He. apply prefix_of_app, He.
      * split; [apply rightmost_prefix; [exact Hr | apply prefix_of_refl]|].
        split; [exact Hall|].
        apply stack_ok_append; assumption.
    + rewrite (write_append_at _ _ _ Hr), node_of_lf. reflexivity.
Qed.

Lemma place_unplaced (s : pstate) (t : token) :
  placed s t = false ->
  all_records (place s t) = all_records s
  /\ id_map (place s t) = id_map s
  /\ (stack (place s t) = stack s \/ stack (place s t) = []).
Proof.
  unfold placed, place. intros Hp.
  destruct (is_garbage t); [repeat split; left; reflexivity|].
  simpl in Hp. destruct (t_level t =? 0); [discriminate|].
  simpl in Hp. destruct (pop_while (t_level t) (stack s)); [|discriminate].
  simpl. repeat split. right. reflexivity.
Qed.

Lemma place_invariant (s : pstate) (t : token) :
  invariant s -> invariant (place s t).
Proof.
  intros Hinv. destruct (placed s t) eqn:Hp.
  - apply place_placed; assumption.
  - destruct (place_unplaced s t Hp) as (Hr & _ & Hs).
    unfold invariant. rewrite Hr.
    destruct Hs as [-> | ->]; [exact Hinv | exact I].
Qed.

(** The text of the forest is the lines of the kept tokens, in order. *)
Lemma write_fold (ts : list token) :
  forall s, invariant s ->
  write_records (all_records (fold_left place ts s))
  = write_records (all_records s)
    ++ concat (map (fun t => header (node_of t) ++ [LF]) (kept s ts)).
Proof.
  induction ts as [|t ts IH]; intros s Hinv; simpl.
  - rewrite app_nil_r. reflexivity.
  - rewrite (IH _ (place_invariant s t Hinv)).
    destruct (placed s t) eqn:Hp.
    + destruct (place_placed s t Hinv Hp) as [_ ->]. simpl.
      rewrite <- !app_assoc. reflexivity.
    + destruct (place_unplaced s t Hp) as (-> & _). reflexivity.
Qed.

(** *** Parsing the kept tokens alone *)

Lemma place_level0 (s s' : pstate) (t : token) :
  same_forest s s' -> t_level t = 0 -> is_garbage t = false ->
  place s t = place s' t.
Proof.
  intros [Hr Hm] Hl Hg. unfold place. rewrite Hg, Hl, Hr, Hm. reflexivity.
Qed.

Lemma kept_head (ts : list token) :
  forall s, stack s = [] ->
  match kept s ts with
  | [] => True
  | t0 :: _ => t_level t0 = 0 /\ is_garbage t0 = false
  end.
Proof.
  induction ts as [|t ts IH]; intros s Hs; simpl; [exact I|].
  destruct (placed s t) eqn:Hp.
  - unfold placed in Hp. rewrite Hs in Hp. simpl in Hp.
    rewrite orb_false_r in Hp. apply andb_true_iff in Hp.
    destruct Hp as [Hg Hl]. split.
    + apply Z.eqb_eq, Hl.
    + apply negb_true_iff, Hg.
  - apply IH. destruct (place_unplaced s t Hp) as (_ & _ & [E|E]);
      [rewrite E; exact Hs | exact E].
Qed.

Lemma kept_again (ts : list token) :
  forall s, same_forest (fold_left place (kept s ts) s)
                        (fold_left place ts s).
Proof.
  induction ts as [|t ts IH]; intros s; simpl; [split; reflexivity|].
  destruct (placed s t) eqn:Hp; [apply IH|].
  destruct (place_unplaced s t Hp) as (Hr & Hm & Hs).
  specialize (IH (place s t)).
  destruct Hs as [Hs|Hs].
  - assert (E : place s t = s).
    { destruct (place s t), s; simpl in *; subst; reflexivity. }
    rewrite E in *. exact IH.
  - pose proof (kept_head ts (place s t) Hs) as Hh.
    destruct (kept (place s t) ts) as [|t0 K].
    + simpl in *. destruct IH as [IH1 IH2]. split; congruence.
    + destruct Hh as [Hl Hg]. simpl in *.
      rewrite (place_level0 s (place s t) t0); try assumption.
      split; congruence.
Qed.

(** Along a run from the empty state every reference on the stack
    designates a node of the forest. *)
Lemma run_invariant (ts : list token) :
  forall s, invariant s -> invariant (fold_left place ts s).
Proof.
  induction ts as [|t ts IH]; intros s H; simpl; [exact H|].
  apply IH, place_invariant, H.
Qed.

Lemma kept_Forall (P : token -> Prop) (ts : list token) :
  forall s, Forall P ts -> Forall P (kept s ts).
Proof.
  induction ts as [|t ts IH]; intros s H; simpl; [constructor|].
  inversion H; subst. destruct (placed s t); [constructor|]; auto.
Qed.

End ForestFacts.

(* ================================================================== *)
(** ** The round trip *)

Section RoundTrip.

Import StrFacts LineFacts TextFacts ForestFacts.

Lemma written_lines (ts : list token) :
  write_records (all_records (fold_left place ts (PState [] [] [])))
  = concat (map render (kept (PState [] [] []) ts)).
Proof. apply (write_fold ts (PState [] [] []) I). Qed.

Lemma read_written_lines (ks : list token) :
  Forall good_token ks ->
  readlines (universal_newlines (concat (map render ks))) = map render ks.
Proof.
  intros Hg.
  assert (Hnb : Forall nobreak (map (fun t => header (node_of t)) ks)).
  { apply Forall_map. eapply Forall_impl; [|exact Hg]. intros t Ht. apply Ht. }
  assert (E : map render ks
              = map (fun l => l ++ [LF]) (map (fun t => header (node_of t)) ks)).
  { rewrite map_map. reflexivity. }
  rewrite E, universal_newlines_id by (apply nobreak_text, Hnb).
  apply readlines_concat.
  eapply Forall_impl; [|exact Hnb]. intros l. apply nobreak_no_lf.
Qed.

(** C2. When a text parses into the records [recs], the text written for
    [recs] parses again, into the same records and the same index, and
    writing those gives the same text, character for character. *)
Theorem parse_write_roundtrip (text : str) (recs : list node) (idm : dict nat) :
  parse_gedcom (Some text) = Ok (recs, idm) ->
  parse_gedcom (Some (write_records recs)) = Ok (recs, idm)
  /\ exists recs' idm',
       parse_gedcom (Some (write_records recs)) = Ok (recs', idm')
       /\ write_records recs' = write_records recs.
Proof.
  intros H.
  assert (G : parse_gedcom (Some (write_records recs)) = Ok (recs, idm)).
  { unfold parse_gedcom, parse_gedcom_lines in *.
    rewrite parse_loop_tokens in H.
    destruct (tokens (readlines (universal_newlines text))) as [ts|e] eqn:Et;
      simpl in H; [|discriminate].
    inversion H as [[Hr Hm]]; clear H.
    pose proof (tokens_good _ _
                  (readlines_lines _ (universal_newlines_no_cr text)) Et)
      as Hgood.
    pose proof (kept_Forall good_token ts (PState [] [] []) Hgood) as Hk.
    rewrite written_lines, (read_written_lines _ Hk).
    rewrite parse_loop_tokens.
    assert (Htok : tokens (map render (kept (PState [] [] []) ts))
                   = Ok (kept (PState [] [] []) ts))
      by (apply tokens_rendered, Hk).
    rewrite Htok. simpl.
    destruct (kept_again ts (PState [] [] [])) as [-> ->]. reflexivity. }
  split; [exact G|]. exists recs, idm. split; [exact G | reflexivity].
Qed.

End RoundTrip.

Lemma parse_write_roundtrip_witness :
  parse_gedcom (Some (write_records (fst sample_records)))
  = Ok (fst sample_records, snd sample_records).
Proof.
  apply (proj1 (parse_write_roundtrip sample_text (fst sample_records)
                  (snd sample_records) eq_refl)).
Defined.

(* ================================================================== *)
(** ** The parser: skipped lines and the one failure *)

Module ParserFacts.

Import StrFacts LineFacts TextFacts.

Lemma existsb_sp (s : str) :
  existsb (fun c => chr_eqb c SP) s = false <-> ~ In SP s.
Proof.
  split.
  - intros H Hi. assert (E : existsb (fun c => chr_eqb c SP) s = true).
    { apply existsb_exists. exists SP. split; [exact Hi | reflexivity]. }
    congruence.
  - intros H. destruct (existsb _ s) eqn:E; [|reflexivity].
    apply existsb_exists in E. destruct E as (c & Hc & Ec).
    apply chr_eqb_eq in Ec. subst c. contradiction.
Qed.

Lemma cut_nosp (s : str) : ~ In SP s -> cut s = None.
Proof.
  intros H. destruct (cut s) as [[a b]|] eqn:E; [|reflexivity].
  apply cut_Some in E. destruct E as [-> _]. exfalso. apply H.
  apply in_or_app. right. left. reflexivity.
Qed.

(** What [tokenize] gives, by the shape of the stripped line. *)
Lemma tokenize_outcome (line : str) :
  (level_only line = true /\ tokenize line = Raise IndexError)
  \/ (level_only line = false /\ skipped line = true
      /\ tokenize line = Ok None)
  \/ (level_only line = false /\ skipped line = false
      /\ exists t, tokenize line = Ok (Some t)).
Proof.
  rewrite tokenize_unfold. unfold level_only, skipped.
  destruct (strip line) as [|c0 s0] eqn:Es.
  { right. left. repeat split. }
  remember (c0 :: s0) as st eqn:Est.
  clear Est Es c0 s0.
  cbn [split]. destruct (cut st) as [[p0 r1]|] eqn:Ec.
  - apply cut_Some in Ec. destruct Ec as [-> Hn0].
    assert (Hsp : existsb (fun c => chr_eqb c SP) (p0 ++ SP :: r1) = true).
    { apply existsb_exists. exists SP. split; [|reflexivity].
      apply in_or_app. right. left. reflexivity. }
    rewrite Hsp. simpl negb. cbn [andb nth].
    unfold tok_of_parts. cbn [nth].
    destruct (int p0) as [lvl|]; [|right; left; repeat split].
    right. right. split; [reflexivity|]. split; [reflexivity|].
    destruct (cut r1) as [[a b]|]; simpl;
      destruct (startswith _ AT && endswith _ AT); simpl;
      try destruct (cut b) as [[tg vl]|]; simpl; eexists; reflexivity.
  - pose proof (cut_None _ Ec) as Hn. apply existsb_sp in Hn.
    rewrite Hn. simpl negb. cbn [andb nth].
    unfold tok_of_parts. cbn [nth].
    destruct (int st) as [lvl|]; [left | right; left]; repeat split.
Qed.

Lemma parse_line_skip (s : pstate) (line : str) :
  tokenize line = Ok None -> parse_line s line = Ok s.
Proof. intros H. unfold parse_line. rewrite H. reflexivity. Qed.

End ParserFacts.

(** X1. A blank line, or a line whose first segment is no integer,
    changes nothing: the loop state is kept, and a file parses as it does
    without the line. *)
Theorem skipped_line_ignored (s : pstate) (line : str) :
  skipped line = true ->
  parse_line s line = Ok s
  /\ forall before after,
       parse_gedcom_lines (before ++ line :: after)
       = parse_gedcom_lines (before ++ after).
Proof.
  intros Hs.
  assert (Ht : tokenize line = Ok None).
  { destruct (ParserFacts.tokenize_outcome line)
      as [[Hl Ht] | [(_ & _ & Ht) | (_ & Hk & _)]];
      [|exact Ht | congruence].
    exfalso. unfold skipped, level_only in *.
    destruct (strip line) as [|c0 s0]; [discriminate|].
    apply andb_true_iff in Hl. destruct Hl as [Hsp Hi].
    apply negb_true_iff, ParserFacts.existsb_sp in Hsp.
    cbn [split] in Hs. rewrite (ParserFacts.cut_nosp _ Hsp) in Hs.
    cbn [nth] in Hs. destruct (int (c0 :: s0)); discriminate. }
  split; [apply ParserFacts.parse_line_skip, Ht|].
  intros before after. unfold parse_gedcom_lines.
  rewrite !parse_loop_app.
  destruct (parse_loop _ before) as [s1|e]; simpl; [|reflexivity].
  rewrite (ParserFacts.parse_line_skip s1 line Ht). reflexivity.
Qed.

Lemma skipped_line_ignored_witness :
  parse_gedcom_lines [lit "0 HEAD"; lit "# comment"; lit "   "; lit "0 TRLR"]
  = parse_gedcom_lines [lit "0 HEAD"; lit "   "; lit "0 TRLR"].
Proof.
  apply (proj2 (skipped_line_ignored (PState [] [] []) (lit "# comment")
                  eq_refl) [lit "0 HEAD"] [lit "   "; lit "0 TRLR"]).
Defined.


(* ================================================================== *)
(** ** The parser: records, levels and the index *)

Module ShapeFacts.

Import StrFacts LineFacts TextFacts ForestFacts.

Lemma alter_fields (g : node -> node) (i : nat) (rs : list node) :
  (forall r, fields (g r) = fields r) ->
  map fields (alter g i rs) = map fields rs.
Proof.
  intros Hg. revert i. induction rs as [|r rs IH]; intros [|i]; simpl;
    try reflexivity.
  - rewrite Hg. reflexivity.
  - rewrite IH. reflexivity.
Qed.

(** Appending below a record leaves the fields of the records alone. *)
Lemma append_at_fields (nd : node) (i : nat) (p : path) (rs : list node) :
  map fields (append_at (i :: p) nd rs) = map fields rs.
Proof. simpl. apply alter_fields. reflexivity. Qed.

Lemma pop_while_nonempty (lvl : Z) (stk : list (Z * path)) :
  Forall (fun e => snd e <> []) stk ->
  Forall (fun e => snd e <> []) (pop_while lvl stk).
Proof.
  induction 1 as [|[l p] stk Hp Hstk IH]; simpl; [constructor|].
  destruct (l >=? lvl); [exact IH | constructor; assumption].
Qed.

Lemma pop_while_top (lvl lp : Z) (p : path) (stk st' : list (Z * path)) :
  pop_while lvl stk = (lp, p) :: st' -> lp < lvl.
Proof.
  induction stk as [|[l q] stk IH]; simpl; [discriminate|].
  destruct (Z.geb_spec l lvl) as [Hge|Hlt].
  - exact IH.
  - intros H; inversion H; subst. lia.
Qed.

(** *** One record per level-0 token *)

Lemma place_fields (s : pstate) (t : token) :
  Forall (fun e => snd e <> []) (stack s) ->
  Forall (fun e => snd e <> []) (stack (place s t))
  /\ map fields (all_records (place s t))
     = map fields (all_records s)
       ++ (if is_record_token t then [token_fields t] else []).
Proof.
  intros Hs. unfold place, is_record_token.
  destruct (is_garbage t).
  { rewrite andb_false_r, app_nil_r. split; [exact Hs | reflexivity]. }
  rewrite andb_true_r. destruct (t_level t =? 0); simpl.
  - split; [repeat constructor; discriminate|].
    rewrite map_app. reflexivity.
  - pose proof (pop_while_nonempty (t_level t) _ Hs) as Hk.
    destruct (pop_while (t_level t) (stack s)) as [|[lp p] st']; simpl.
    + rewrite app_nil_r. split; [constructor | reflexivity].
    + rewrite app_nil_r. inversion Hk as [|? ? Hp _]; subst. simpl in Hp.
      split.
      * constructor; [|exact Hk]. simpl. destruct p; discriminate.
      * destruct p as [|i p]; [congruence|]. apply append_at_fields.
Qed.


(** *** The index *)

Lemma key_of_fields (r r' : node) :
  tag r = tag r' -> xref_id r = xref_id r' -> key_of r = key_of r'.
Proof. unfold key_of. intros -> ->. reflexivity. Qed.

Lemma last_keyed_fields (k : str) (rs : list node) :
  forall rs' i0, map fields rs = map fields rs' ->
  last_keyed k i0 rs = last_keyed k i0 rs'.
Proof.
  induction rs as [|r rs IH]; intros [|r' rs'] i0 H; simpl in H;
    try discriminate; [reflexivity|].
  inversion H as [[Hl Ht Hv Hx Hrs]]. simpl.
  rewrite (IH rs' (S i0) Hrs), (key_of_fields r r' Ht Hx). reflexivity.
Qed.

Lemma last_keyed_snoc (k : str) (rs : list node) (nd : node) :
  forall i0,
  last_keyed k i0 (rs ++ [nd])
  = match key_of nd with
    | Some k' => if eqb k' k then Some (i0 + length rs)%nat
                 else last_keyed k i0 rs
    | None => last_keyed k i0 rs
    end.
Proof.
  induction rs as [|r rs IH]; intros i0; simpl.
  - rewrite Nat.add_0_r. destruct (key_of nd) as [k'|]; [|reflexivity].
    destruct (eqb k' k); reflexivity.
  - rewrite IH. destruct (key_of nd) as [k'|]; [|reflexivity].
    destruct (eqb k' k); [|reflexivity].
    f_equal. lia.
Qed.

Lemma place_index (s : pstate) (t : token) :
  Forall (fun e => snd e <> []) (stack s) ->
  (forall k, dict_get (id_map s) k = last_keyed k 0 (all_records s)) ->
  forall k, dict_get (id_map (place s t)) k
            = last_keyed k 0 (all_records (place s t)).
Proof.
  intros Hs Hi k.
  destruct (place_fields s t Hs) as [_ Hf].
  unfold place in *. destruct (is_garbage t); [apply Hi|].
  destruct (t_level t =? 0) eqn:E0; simpl in *.
  - rewrite last_keyed_snoc. unfold key_of. simpl.
    destruct (eqb (t_tag t) T_LOC && truthy (t_xref t)); simpl.
    + rewrite dict_get_set. destruct (eqb _ k); [reflexivity | apply Hi].
    + apply Hi.
  - destruct (pop_while (t_level t) (stack s)) as [|[lp p] st']; simpl in *.
    + apply Hi.
    + unfold is_record_token in Hf. rewrite E0 in Hf. simpl in Hf.
      rewrite app_nil_r in Hf.
      rewrite (last_keyed_fields k _ _ 0%nat Hf). apply Hi.
Qed.

Lemma fold_index (ts : list token) :
  forall s, Forall (fun e => snd e <> []) (stack s) ->
  (forall k, dict_get (id_map s) k = last_keyed k 0 (all_records s)) ->
  forall k, dict_get (id_map (fold_left place ts s)) k
            = last_keyed k 0 (all_records (fold_left place ts s)).
Proof.
  induction ts as [|t ts IH]; intros s Hs Hi; simpl; [exact Hi|].
  apply IH; [apply place_fields, Hs | apply place_index; assumption].
Qed.

End ShapeFacts.



(** X4. The identifier index is exact: an id is in the index when some
    record with tag _LOC and a cross-reference id has that id once the
    "@" are stripped from both ends, and it then refers to the last such
    record; no other id is in the index. *)
Theorem index_is_last_record (lines : list str) (recs : list node)
  (idm : dict nat) :
  parse_gedcom_lines lines = Ok (recs, idm) ->
  forall k, dict_get idm k = last_keyed k 0 recs.
Proof.
  unfold parse_gedcom_lines. rewrite TextFacts.parse_loop_tokens.
  destruct (tokens lines) as [ts|e]; simpl; [|discriminate].
  intros H; inversion H; subst; clear H.
  apply (ShapeFacts.fold_index ts (PState [] [] []));
    [constructor | reflexivity].
Qed.

Lemma index_is_last_record_witness :
  dict_get [(lit "L1", 2%nat)] (lit "L1")
  = last_keyed (lit "L1") 0
      [Node 0 T_LOC [] (Some (lit "@L1@")) [];
       Node 0 (lit "HEAD") [] None [];
       Node 0 T_LOC [] (Some (lit "@@L1@")) []].
Proof.
  apply (index_is_last_record
           [lit "0 @L1@ _LOC"; lit "0 HEAD"; lit "0 @@L1@ _LOC"] _ _ eq_refl).
Defined.

(* ================================================================== *)
(** ** The parser: levels rise from parent to child *)

Module LevelFacts.

Import StrFacts LineFacts TextFacts ForestFacts ShapeFacts.

Lemma deeper_with_children (lp : Z) (n : node) (cs : list node) :
  deeper lp (with_children n cs)
  = (lp <? level n) && forallb (deeper (level n)) cs.
Proof. reflexivity. Qed.

Lemma deeper_eq (lp : Z) (n : node) :
  deeper lp n = (lp <? level n) && forallb (deeper (level n)) (children n).
Proof. destruct n; reflexivity. Qed.

(** The level of the node at a prefix of the path is not changed by
    appending at the path. *)
Lemma node_at_prefix (nd : node) (q : path) :
  forall p rs, rightmost p rs -> prefix_of q p -> q <> [] ->
  option_map level (node_at q (append_at p nd rs))
  = option_map level (node_at q rs).
Proof.
  induction q as [|i q IH]; intros p rs Hr [r Hp] Hq; [congruence|].
  subst p. simpl in Hr. destruct Hr as (cs0 & n & -> & -> & Hr).
  cbn [append_at app]. rewrite alter_last. cbn [node_at].
  rewrite !nth_error_last.
  destruct q as [|j q]; [reflexivity|].
  cbn [children with_children].
  apply IH; [exact Hr | exists r; reflexivity | discriminate].
Qed.

Lemma node_at_new (nd : node) (p : path) :
  forall rs, rightmost p rs ->
  node_at (p ++ [length (kids p rs)]) (append_at p nd rs) = Some nd.
Proof.
  induction p as [|i p IH]; intros rs Hr.
  - simpl. rewrite nth_error_last. reflexivity.
  - simpl in Hr. destruct Hr as (cs0 & n & -> & -> & Hr).
    cbn [append_at app kids]. rewrite alter_last, nth_error_last.
    cbn [node_at]. rewrite nth_error_last.
    specialize (IH _ Hr).
    destruct (p ++ [length (kids p (children n))]) eqn:E.
    + destruct p; discriminate.
    + exact IH.
Qed.

(** Appending a leaf of greater level below a node keeps the levels
    rising. *)
Lemma deeper_append (nd : node) (lp : Z) (p : path) :
  forall rs lp0,
  rightmost p rs -> p <> [] ->
  option_map level (node_at p rs) = Some lp ->
  lp < level nd -> children nd = [] ->
  forallb (deeper lp0) rs = true ->
  forallb (deeper lp0) (append_at p nd rs) = true.
Proof.
  induction p as [|i p IH]; intros rs lp0 Hr Hp Hn Hlt Hleaf Hd;
    [congruence|].
  simpl in Hr. destruct Hr as (cs0 & n & -> & -> & Hr).
  cbn [append_at]. rewrite alter_last.
  rewrite forallb_app in *. apply andb_true_iff in Hd.
  destruct Hd as [Hd0 Hd1]. rewrite Hd0. simpl in *.
  rewrite andb_true_r in *. rewrite deeper_eq in Hd1.
  apply andb_true_iff in Hd1. destruct Hd1 as [Hl Hc].
  rewrite Hl. simpl.
  rewrite nth_error_last in Hn.
  destruct p as [|j p].
  - simpl in Hn. inversion Hn; subst lp. simpl.
    rewrite forallb_app, Hc. simpl. rewrite deeper_eq, Hleaf. simpl.
    rewrite andb_true_r. apply andb_true_iff. split; [|reflexivity].
    apply Z.ltb_lt, Hlt.
  - apply (IH (children n) (level n)); try assumption. discriminate.
Qed.

Lemma Forall_level_fields (rs rs' : list node) :
  map fields rs = map fields rs' ->
  Forall (fun r => level r = 0) rs -> Forall (fun r => level r = 0) rs'.
Proof.
  revert rs'. induction rs as [|r rs IH]; intros [|r' rs'] H Hf;
    simpl in H; try discriminate; [constructor|].
  inversion H as [[Hl Ht Hv Hx Hrs]]. inversion Hf; subst.
  constructor; [congruence | apply (IH rs'); assumption].
Qed.

Lemma pop_while_levels (s : pstate) (lvl : Z) :
  stack_levels s ->
  Forall (fun e => snd e <> []
                   /\ option_map level (node_at (snd e) (all_records s))
                      = Some (fst e))
         (pop_while lvl (stack s)).
Proof.
  unfold stack_levels. induction 1 as [|[l p] stk Hp Hstk IH]; simpl;
    [constructor|].
  destruct (l >=? lvl); [exact IH | constructor; assumption].
Qed.

Lemma levels_append (nd : node) (p : path) (rs : list node)
  (stk : list (Z * path)) :
  rightmost p rs ->
  Forall (fun e => prefix_of (snd e) p) stk ->
  Forall (fun e => snd e <> []
                   /\ option_map level (node_at (snd e) rs) = Some (fst e))
         stk ->
  Forall (fun e => snd e <> []
                   /\ option_map level (node_at (snd e) (append_at p nd rs))
                      = Some (fst e))
         stk.
Proof.
  intros Hr Hpre Hl. rewrite Forall_forall in *. intros e He.
  destruct (Hl e He) as [Hq Hql]. split; [exact Hq|].
  rewrite (node_at_prefix nd (snd e) p rs Hr (Hpre e He) Hq). exact Hql.
Qed.

Lemma place_shaped (s : pstate) (t : token) : shaped s -> shaped (place s t).
Proof.
  intros (Hinv & Hlv & Hd & Hz).
  split; [apply place_invariant, Hinv|].
  pose proof (pop_while_levels s (t_level t) Hlv) as Hpl.
  pose proof (stack_ok_pop (all_records s) (t_level t) (stack s) Hinv) as Hok.
  unfold place, stack_levels in *. destruct (is_garbage t);
    [repeat split; assumption|].
  destruct (Z.eqb_spec (t_level t) 0) as [E0|E0]; simpl.
  - split; [|split].
    + constructor; [|constructor]. simpl. split; [discriminate|].
      rewrite nth_error_last. simpl. congruence.
    + rewrite forallb_app, Hd. simpl. rewrite E0. reflexivity.
    + apply Forall_app. split; [exact Hz|]. constructor; [exact E0|constructor].
  - destruct (pop_while (t_level t) (stack s)) as [|[lp p] st'] eqn:Ep; simpl.
    + repeat split; [constructor | exact Hd | exact Hz].
    + pose proof (pop_while_top _ _ _ _ _ Ep) as Hlt.
      inversion Hpl as [|? ? [Hpne Hplv] Hrest]; subst. simpl in Hpne, Hplv.
      simpl in Hok. destruct Hok as (Hr & Hpre & Hok).
      split; [|split].
      * constructor.
        { simpl. split; [destruct p; discriminate|].
          rewrite (node_at_new _ _ _ Hr). reflexivity. }
        apply levels_append; [exact Hr | | exact Hpl].
        constructor; [apply prefix_of_refl | exact Hpre].
      * apply (deeper_append _ lp); auto.
      * destruct p as [|i p]; [congruence|].
        eapply Forall_level_fields; [|exact Hz].
        symmetry. apply append_at_fields.
Qed.

Lemma fold_shaped (ts : list token) :
  forall s, shaped s -> shaped (fold_left place ts s).
Proof.
  induction ts as [|t ts IH]; intros s H; simpl; [exact H|].
  apply IH, place_shaped, H.
Qed.

End LevelFacts.

(** X5. In the forest the parser returns every top-level record has
    level 0 and every child has a level strictly greater than its
    parent's, at every depth: a node is only ever attached below an
    ancestor of smaller level, and lines of negative level are never
    attached. *)
Theorem parsed_levels_rise (lines : list str) (recs : list node)
  (idm : dict nat) :
  parse_gedcom_lines lines = Ok (recs, idm) ->
  Forall (fun r => level r = 0) recs
  /\ forallb (fun r => forallb (deeper (level r)) (children r)) recs = true.
Proof.
  unfold parse_gedcom_lines. rewrite TextFacts.parse_loop_tokens.
  destruct (tokens lines) as [ts|e]; simpl; [|discriminate].
  intros H; inversion H; subst; clear H.
  destruct (LevelFacts.fold_shaped ts (PState [] [] []))
    as (_ & _ & Hd & Hz).
  { repeat split; constructor. }
  split; [exact Hz|].
  rewrite forallb_forall in *. intros r Hr. specialize (Hd r Hr).
  rewrite LevelFacts.deeper_eq in Hd. apply andb_true_iff in Hd. apply Hd.
Qed.

Lemma parsed_levels_rise_witness :
  Forall (fun r => level r = 0) (fst sample_records)
  /\ forallb (fun r => forallb (deeper (level r)) (children r))
       (fst sample_records) = true.
Proof.
  apply (parsed_levels_rise
           (readlines (universal_newlines sample_text))
           (fst sample_records) (snd sample_records) eq_refl).
Defined.

(* ================================================================== *)
(** ** The merger: what is replaced, and merging twice *)

Module MergeMore.

Import Merge MergeFacts.

Lemma foreign_not (t : str) (cs : list node) :
  existsb (eqb t) [NAME; T_LOC; CHAN; T_UID] = true ->
  filter (fun c => eqb (tag c) t) (filter foreign cs) = [].
Proof.
  intros Ht. apply filter_none. apply Forall_forall. intros c Hc.
  apply filter_In in Hc. destruct Hc as [_ Hc].
  destruct (eqb (tag c) t) eqn:E; [|reflexivity].
  apply eqb_eq in E. unfold foreign in Hc. rewrite E, Ht in Hc. discriminate.
Qed.

(** The abbreviation found for [k] after a merge. *)
Lemma carried_after (fr : fresh) (cs : list node) (item : yaml_item)
  (k : str) :
  carried_abbr k (merged_children fr cs item)
  = if lists_name item k then carried_abbr k cs else None.
Proof.
  unfold carried_abbr, merged_children, abbr_values.
  rewrite !flat_map_app.
  fold (abbr_values k (merged_uids fr cs)).
  fold (abbr_values k [merged_chan fr cs]).
  fold (abbr_values k (filter foreign cs)).
  fold (abbr_values k (merged_names cs item)).
  fold (abbr_values k (merged_links item)).
  rewrite (abbr_values_untagged k (merged_uids fr cs)).
  2:{ eapply Forall_impl; [|apply merged_uids_tags].
      intros c E; rewrite E; reflexivity. }
  rewrite (abbr_values_untagged k ([merged_chan fr cs])).
  2:{ constructor; [|constructor]. rewrite merged_chan_tag. reflexivity. }
  rewrite (abbr_values_untagged k (filter foreign cs)).
  2:{ eapply Forall_impl; [|apply foreign_tags]. intros c Hc. simpl in Hc.
      unfold foreign in Hc. simpl in Hc.
      destruct (eqb (tag c) NAME); [discriminate|reflexivity]. }
  rewrite (abbr_values_untagged k (merged_links item)).
  2:{ eapply Forall_impl; [|apply merged_links_tags].
      intros c E; rewrite E; reflexivity. }
  simpl. rewrite app_nil_r. unfold merged_names, lists_name.
  destruct (names item) as [ns|]; [|reflexivity].
  apply abbr_values_merged.
Qed.

(** The record [create_new_record] returns. *)
Lemma created_shape (fr : fresh) (rec_id : str) (item : yaml_item) :
  create_new_record fr rec_id item
  = Node 0 T_LOC [] (Some ([AT] ++ rec_id ++ [AT]))
      ([Node 1 T_UID (uid fr) None []; create_chan_node fr]
       ++ map (name_child None) (names_of item)
       ++ merged_links item).
Proof.
  unfold create_new_record. rewrite update_record_eq.
  unfold with_children, merged_children. simpl. f_equal. f_equal. f_equal.
  unfold merged_names, names_of. destruct (names item); reflexivity.
Qed.

(** Merging again with the same external record changes nothing. *)
Lemma update_again (fr1 fr2 : fresh) (record : node) (item : yaml_item) :
  update_record fr2 (update_record fr1 record item) item
  = update_record fr1 record item.
Proof.
  rewrite (update_record_eq fr2), (update_record_eq fr1). simpl children.
  rewrite merged_children_again. reflexivity.
Qed.

End MergeMore.

(** X6. [update_record] replaces the NAME and _LOC children entirely:
    after the merge the NAME children are exactly those built from
    [names], one per entry, and the _LOC children exactly those built
    from the parents that have an id; none of the NAME or _LOC children
    found before the merge is left, and an external record without the
    key leaves none at all. *)
Theorem update_record_replaces (fr : fresh) (record : node) (item : yaml_item) :
  filter (fun c => eqb (tag c) NAME) (children (update_record fr record item))
    = Merge.merged_names (children record) item
  /\ filter (fun c => eqb (tag c) T_LOC)
       (children (update_record fr record item))
     = Merge.merged_links item
  /\ count_tag NAME (children (update_record fr record item))
     = length (names_of item).
Proof.
  rewrite MergeFacts.update_record_children.
  assert (HN : filter (fun c => eqb (tag c) NAME)
                 (Merge.merged_children fr (children record) item)
               = Merge.merged_names (children record) item).
  { rewrite (MergeFacts.again_filter fr (children record) item
               (fun c => eqb (tag c) NAME) false false true false);
      try (intros c E; rewrite E; reflexivity).
    rewrite MergeMore.foreign_not by reflexivity.
    simpl. apply app_nil_r. }
  split; [exact HN|]. split.
  - rewrite (MergeFacts.again_filter fr (children record) item
               (fun c => eqb (tag c) T_LOC) false false false true);
      try (intros c E; rewrite E; reflexivity).
    rewrite MergeMore.foreign_not by reflexivity. reflexivity.
  - unfold count_tag. rewrite HN. unfold Merge.merged_names, names_of.
    destruct (names item); [apply length_map | reflexivity].
Qed.

(** X7. Two merges in a row, with external records that may differ:
    the unique-id nodes, the change-metadata node and the foreign
    children are those the first merge left; the NAME and _LOC children
    are built from the second external record; and a NAME child keeps the
    abbreviation found in the original children only if the first
    external record listed that name too. *)
Theorem update_record_twice (fr1 fr2 : fresh) (record : node)
  (item1 item2 : yaml_item) :
  let cs := children record in
  children (update_record fr2 (update_record fr1 record item1) item2)
  = Merge.merged_uids fr1 cs ++ [Merge.merged_chan fr1 cs]
    ++ filter Merge.foreign cs
    ++ map (fun n => name_child
                       (if lists_name item1 (n_name n)
                        then Merge.carried_abbr (n_name n) cs else None) n)
           (names_of item2)
    ++ Merge.merged_links item2.
Proof.
  intros cs. rewrite (update_record_eq fr1), MergeFacts.update_record_children.
  simpl children. fold cs.
  unfold Merge.merged_children at 1.
  unfold Merge.merged_uids at 1, Merge.merged_chan at 1.
  rewrite MergeFacts.again_uids, MergeFacts.again_chan,
    MergeFacts.again_foreign.
  simpl last_opt.
  pose proof (MergeFacts.merged_uids_nonempty fr1 cs) as Hne.
  destruct (Merge.merged_uids fr1 cs) as [|u us] eqn:Eu; [congruence|].
  f_equal. f_equal. f_equal. f_equal.
  unfold Merge.merged_names, names_of.
  destruct (names item2) as [ns|]; [|reflexivity].
  apply map_ext. intros n. unfold Merge.merged_name, name_child.
  rewrite MergeMore.carried_after. reflexivity.
Qed.


(* ================================================================== *)
(** ** [main]: the trailer, the merge loop *)

Module MainFacts.

Import ForestFacts ShapeFacts.

Lemma find_index_split {A} (f : A -> bool) (l : list A) (i : nat) :
  find_index f l = Some i ->
  exists a x b, l = a ++ x :: b /\ length a = i /\ f x = true
                /\ Forall (fun y => f y = false) a.
Proof.
  revert i. induction l as [|y l IH]; intros i; simpl; [discriminate|].
  destruct (f y) eqn:E.
  - intros H; inversion H; subst. exists [], y, l.
    repeat split; [exact E | constructor].
  - destruct (find_index f l) as [j|]; simpl; [|discriminate].
    intros H; inversion H; subst.
    destruct (IH j eq_refl) as (a & x & b & -> & Hl & Hx & Ha).
    exists (y :: a), x, b. repeat split; simpl; auto.
Qed.

Lemma find_index_none {A} (f : A -> bool) (l : list A) :
  find_index f l = None -> Forall (fun y => f y = false) l.
Proof.
  induction l as [|y l IH]; simpl; [constructor|].
  destruct (f y) eqn:E; [discriminate|].
  destruct (find_index f l); simpl; [discriminate|].
  intros _. constructor; auto.
Qed.

Lemma remove_at_middle {A} (a b : list A) (x : A) :
  remove_at (length a) (a ++ x :: b) = a ++ b.
Proof. induction a as [|y a IH]; simpl; [|rewrite IH]; reflexivity. Qed.

Lemma nth_error_middle {A} (a b : list A) (x : A) :
  nth_error (a ++ x :: b) (length a) = Some x.
Proof. induction a as [|y a IH]; simpl; [reflexivity | exact IH]. Qed.

Lemma nth_error_alter {A} (g : A -> A) (i j : nat) (l : list A) :
  nth_error (alter g i l) j
  = if Nat.eqb i j then option_map g (nth_error l j) else nth_error l j.
Proof.
  revert i j. induction l as [|x l IH]; intros [|i] [|j]; simpl;
    try reflexivity; try apply IH;
    destruct (Nat.eqb _ _); reflexivity.
Qed.

Lemma length_alter {A} (g : A -> A) (i : nat) (l : list A) :
  length (alter g i l) = length l.
Proof.
  revert i. induction l as [|x l IH]; intros [|i]; simpl; auto.
Qed.

Lemma main_records_eq (file : option str) (yaml_data : list (str * yaml_item))
  (src : nat -> fresh) (recs : list node) (idm : dict nat) :
  parse_gedcom file = Ok (recs, idm) ->
  main_records file yaml_data src
  = Ok (move_trlr (merge_loop src yaml_data recs idm)).
Proof.
  intros H. unfold main_records, merge_loop. rewrite H. simpl.
  destruct (fold_left (merge_item src) yaml_data (recs, idm, O))
    as [[records idm'] k]. reflexivity.
Qed.

(** *** External records that the file does not know *)

Lemma merge_loop_new (src : nat -> fresh) (ys : list (str * yaml_item)) :
  forall records idm k,
  NoDup (map fst ys) ->
  (forall y, In y (map fst ys) -> dict_get idm y = None) ->
  fst (fst (fold_left (merge_item src) ys (records, idm, k)))
  = records ++ new_records src k ys.
Proof.
  induction ys as [|[y_id y_item] ys IH]; intros records idm k Hnd Hnew;
    simpl.
  - rewrite app_nil_r. reflexivity.
  - rewrite (Hnew y_id) by (left; reflexivity).
    inversion Hnd as [|? ? Hni Hnd']; subst.
    rewrite IH.
    + rewrite <- app_assoc. reflexivity.
    + exact Hnd'.
    + intros y Hy. rewrite dict_get_set.
      destruct (eqb y_id y) eqn:E.
      * apply eqb_eq in E. subst y. contradiction.
      * apply Hnew. right. exact Hy.
Qed.

Lemma new_records_tags (src : nat -> fresh) (ys : list (str * yaml_item)) :
  forall k, Forall (fun r => eqb (tag r) TRLR = false) (new_records src k ys).
Proof.
  induction ys as [|[y_id y_item] ys IH]; intros k; simpl; constructor.
  - reflexivity.
  - apply IH.
Qed.

Lemma find_index_all_false {A} (f : A -> bool) (l : list A) :
  Forall (fun y => f y = false) l -> find_index f l = None.
Proof.
  induction 1 as [|x l Hx _ IH]; simpl; [reflexivity|].
  rewrite Hx, IH. reflexivity.
Qed.

(** *** Records the loop leaves alone *)

Lemma merge_item_keeps (src : nat -> fresh) (i : nat) (r : node)
  (records : list node) (idm : dict nat) (k : nat)
  (entry : str * yaml_item) :
  nth_error records i = Some r ->
  dict_get idm (fst entry) <> Some i ->
  let '(records', idm', _) := merge_item src (records, idm, k) entry in
  nth_error records' i = Some r
  /\ forall y, dict_get idm y <> Some i -> dict_get idm' y <> Some i.
Proof.
  intros Hr Hne. destruct entry as [y_id y_item]. simpl in *.
  destruct (dict_get idm y_id) as [j|] eqn:Ej.
  - split; [|auto]. rewrite nth_error_alter.
    destruct (Nat.eqb_spec j i); [congruence | exact Hr].
  - split.
    + rewrite nth_error_app1; [exact Hr|].
      apply nth_error_Some. congruence.
    + intros y Hy. rewrite dict_get_set. destruct (eqb y_id y); [|exact Hy].
      intros E. inversion E; subst.
      assert (length records < length records)%nat; [|lia].
      apply nth_error_Some. congruence.
Qed.

Lemma merge_loop_keeps (src : nat -> fresh) (i : nat) (r : node)
  (ys : list (str * yaml_item)) :
  forall records idm k,
  nth_error records i = Some r ->
  (forall y, In y (map fst ys) -> dict_get idm y <> Some i) ->
  nth_error (fst (fst (fold_left (merge_item src) ys (records, idm, k)))) i
  = Some r.
Proof.
  induction ys as [|e ys IH]; intros records idm k Hr Hn; cbn [fold_left];
    [exact Hr|].
  pose proof (merge_item_keeps src i r records idm k e Hr
                (Hn _ (or_introl eq_refl))) as Hk.
  destruct (merge_item src (records, idm, k) e) as [[records' idm'] k'].
  destruct Hk as [Hr' Hi']. apply IH; [exact Hr'|].
  intros y Hy. apply Hi', Hn. right. exact Hy.
Qed.

(** *** What the loop does to any record *)

Lemma merge_item_fields (src : nat -> fresh) (records : list node)
  (idm : dict nat) (k : nat) (entry : str * yaml_item) :
  exists extra,
    map fields (fst (fst (merge_item src (records, idm, k) entry)))
    = map fields records ++ extra
    /\ Forall (fun f => exists x, f = (0, T_LOC, [], Some x)) extra.
Proof.
  destruct entry as [y_id y_item]. simpl.
  destruct (dict_get idm y_id) as [j|]; simpl.
  - exists []. rewrite app_nil_r. split; [|constructor].
    apply alter_fields. reflexivity.
  - eexists. rewrite map_app. split; [reflexivity|].
    constructor; [|constructor]. eexists. reflexivity.
Qed.

Lemma merge_loop_fields (src : nat -> fresh) (ys : list (str * yaml_item)) :
  forall records idm k,
  exists extra,
    map fields (fst (fst (fold_left (merge_item src) ys (records, idm, k))))
    = map fields records ++ extra
    /\ Forall (fun f => exists x, f = (0, T_LOC, [], Some x)) extra.
Proof.
  induction ys as [|e ys IH]; intros records idm k; cbn [fold_left].
  - exists []. rewrite app_nil_r. split; [reflexivity | constructor].
  - destruct (merge_item_fields src records idm k e) as (x1 & H1 & F1).
    destruct (merge_item src (records, idm, k) e) as [[records' idm'] k'].
    cbn [fst] in H1.
    destruct (IH records' idm' k') as (x2 & H2 & F2).
    exists (x1 ++ x2). rewrite H2, H1, <- app_assoc. split; [reflexivity|].
    apply Forall_app. split; assumption.
Qed.

End MainFacts.

(** X9. The trailer step of [main]: when some record has the tag TRLR,
    the first such record is taken out and put at the end, unchanged,
    and all other records keep their order; when none has, an empty
    trailer record is added at the end. *)
Theorem move_trlr_cases (records : list node) :
  (exists a t b,
      records = a ++ t :: b /\ tag t = TRLR
      /\ Forall (fun r => tag r <> TRLR) a
      /\ move_trlr records = a ++ b ++ [t])
  \/ (Forall (fun r => tag r <> TRLR) records
      /\ move_trlr records = records ++ [Node 0 TRLR [] None []]).
Proof.
  unfold move_trlr.
  destruct (find_index (fun r => eqb (tag r) TRLR) records) as [i|] eqn:E.
  - left. apply MainFacts.find_index_split in E.
    destruct E as (a & x & b & -> & <- & Hx & Ha).
    exists a, x, b. rewrite MainFacts.nth_error_middle,
      MainFacts.remove_at_middle, <- app_assoc.
    repeat split; [apply eqb_eq, Hx|].
    eapply Forall_impl; [|exact Ha]. intros r Hr. apply eqb_neq, Hr.
  - right. apply MainFacts.find_index_none in E. split; [|reflexivity].
    eapply Forall_impl; [|exact E]. intros r Hr. apply eqb_neq, Hr.
Qed.

(** X10. When no id of the external data is in the index of the file,
    and the ids are distinct as the keys of a dict are, [main] changes no
    record of the file: it appends one new record per external record,
    in the order of the data, and then moves or adds the trailer.  With
    no file at all the output is these new records and a new trailer. *)
Theorem main_creates_unknown (file : option str)
  (yaml_data : list (str * yaml_item)) (src : nat -> fresh)
  (recs : list node) (idm : dict nat) :
  parse_gedcom file = Ok (recs, idm) ->
  NoDup (map fst yaml_data) ->
  (forall y, In y (map fst yaml_data) -> dict_get idm y = None) ->
  main_records file yaml_data src
  = Ok (move_trlr (recs ++ new_records src O yaml_data))
  /\ (recs = [] ->
      main_records file yaml_data src
      = Ok (new_records src O yaml_data ++ [Node 0 TRLR [] None []])).
Proof.
  intros Hp Hnd Hnew.
  assert (H : main_records file yaml_data src
              = Ok (move_trlr (recs ++ new_records src O yaml_data))).
  { rewrite (MainFacts.main_records_eq file yaml_data src recs idm Hp).
    unfold merge_loop. rewrite MainFacts.merge_loop_new by assumption.
    reflexivity. }
  split; [exact H|]. intros ->. rewrite H. simpl. unfold move_trlr.
  rewrite (MainFacts.find_index_all_false _ _
             (MainFacts.new_records_tags src yaml_data O)).
  reflexivity.
Qed.

Lemma main_creates_unknown_witness :
  main_records None [(L1, springfield_item); (lit "L2", no_data)]
    (fun _ => fresh0)
  = Ok (new_records (fun _ => fresh0) O
          [(L1, springfield_item); (lit "L2", no_data)]
        ++ [Node 0 TRLR [] None []]).
Proof.
  apply (proj2 (main_creates_unknown None
                  [(L1, springfield_item); (lit "L2", no_data)]
                  (fun _ => fresh0) [] [] eq_refl
                  ltac:(repeat constructor; simpl; intuition discriminate)
                  ltac:(intros; reflexivity))
               eq_refl).
Defined.

(** X11. The loop of [main] never removes or reorders a record and
    never changes the level, tag, value or cross-reference id of one: the
    fields of the records after the loop are those before it, followed
    by those of the new records, each of level 0 with tag _LOC and no
    value.  A record that the index gives for no id of the external data
    comes out of the loop as it went in, children included. *)
Theorem merge_loop_frame (src : nat -> fresh)
  (yaml_data : list (str * yaml_item)) (recs : list node) (idm : dict nat) :
  (exists extra,
      map fields (merge_loop src yaml_data recs idm)
      = map fields recs ++ extra
      /\ Forall (fun f => exists x, f = (0, T_LOC, [], Some x)) extra)
  /\ forall i r,
       nth_error recs i = Some r ->
       (forall y, In y (map fst yaml_data) -> dict_get idm y <> Some i) ->
       nth_error (merge_loop src yaml_data recs idm) i = Some r.
Proof.
  split.
  - apply MainFacts.merge_loop_fields.
  - intros i r Hr Hn. apply MainFacts.merge_loop_keeps; assumption.
Qed.

(* ================================================================== *)
(** ** A created record read back, the serializer, the external data *)

Module ReadBack.

Import StrFacts IntFacts LineFacts.

Lemma strip_by_cons (f : ascii -> bool) (c : ascii) (s : str) :
  f c = true -> strip_by f (c :: s) = strip_by f s.
Proof. intros H. unfold strip_by. simpl. rewrite H. reflexivity. Qed.

Lemma strip_chr_wrapped (x : str) :
  strip_chr AT ([AT] ++ x ++ [AT]) = strip_chr AT x.
Proof.
  unfold strip_chr. simpl. rewrite strip_by_cons by reflexivity.
  apply strip_by_app. reflexivity.
Qed.

Lemma endswith_wrapped (x : str) : endswith (AT :: x ++ [AT]) AT = true.
Proof.
  unfold endswith. simpl. rewrite rev_app_distr. reflexivity.
Qed.

Lemma loc_line_token (x : str) :
  ~ In SP x ->
  tokenize (loc_line x ++ [LF])
  = Ok (Some (Token 0 (Some (AT :: x ++ [AT])) T_LOC [])).
Proof.
  intros Hx.
  assert (Hs : strip (loc_line x ++ [LF]) = loc_line x).
  { unfold strip. rewrite strip_by_app by reflexivity.
    apply strip_by_id. split; [reflexivity|].
    unfold loc_line. rewrite !rev_app_distr. reflexivity. }
  rewrite (tokenize_stripped _ _ Hs) by discriminate.
  unfold loc_line.
  change (lit "0 " ++ (AT :: x ++ [AT]) ++ lit " _LOC")
    with (lit "0" ++ SP :: ((AT :: x ++ [AT]) ++ SP :: T_LOC)).
  rewrite split_app by (vm_compute; intuition discriminate).
  assert (Hn : ~ In SP (AT :: x ++ [AT])).
  { intros [E|Hi]; [vm_compute in E; discriminate|].
    apply in_app_or in Hi. destruct Hi as [Hi|[E|[]]]; [exact (Hx Hi)|].
    vm_compute in E. discriminate. }
  rewrite (split_app 0 _ T_LOC Hn).
  unfold tok_of_parts. cbn [nth length split].
  change (int (lit "0")) with (Some 0).
  change (startswith (AT :: x ++ [AT]) AT) with true.
  rewrite endswith_wrapped. reflexivity.
Qed.

End ReadBack.

(** X12. The record made for an external id is found again under that
    id: the line written for it, read by the parser, gives a record with
    the same fields and puts it in the index under the id stripped of
    "@" at both ends, which is the id itself exactly when the id neither
    starts nor ends with "@" (the id must hold no space). *)
Theorem created_record_read_back (fr : fresh) (rec_id : str)
  (item : yaml_item) :
  ~ In SP rec_id ->
  let line := header (create_new_record fr rec_id item) ++ [LF] in
  parse_gedcom_lines [line]
  = Ok ([Node 0 T_LOC [] (Some ([AT] ++ rec_id ++ [AT])) []],
        [(strip_chr AT rec_id, O)])
  /\ (strip_chr AT rec_id = rec_id <-> trimmed (chr_eqb AT) rec_id).
Proof.
  intros Hx line. split.
  - unfold parse_gedcom_lines, parse_loop, parse_line.
    assert (Hl : line = loc_line rec_id ++ [LF]).
    { unfold line, create_new_record. rewrite update_record_eq. reflexivity. }
    rewrite Hl, (ReadBack.loc_line_token rec_id Hx). simpl.
    unfold place, is_garbage. simpl.
    pose proof (ReadBack.strip_chr_wrapped rec_id) as E. simpl in E.
    rewrite E. reflexivity.
  - split.
    + intros E. rewrite <- E. apply StrFacts.strip_by_trimmed.
    + apply StrFacts.strip_by_id.
Qed.

Module YamlFacts.

Lemma load_yaml_data_eq (files : list yaml_doc) :
  load_yaml_data files = fold_left add_item (all_items files) [].
Proof.
  unfold load_yaml_data, all_items. generalize (@nil (str * yaml_item)).
  induction files as [|doc files IH]; intros d; simpl; [reflexivity|].
  rewrite fold_left_app, IH. destruct doc; reflexivity.
Qed.

Lemma items_for_cons (k : str) (id : option str) (v : yaml_item)
  (items : list (option str * yaml_item)) :
  items_for k ((id, v) :: items)
  = match id with
    | Some x => if eqb x k then v :: items_for k items else items_for k items
    | None => items_for k items
    end.
Proof.
  unfold items_for. simpl. destruct id as [x|]; [|reflexivity].
  destruct (eqb x k); reflexivity.
Qed.

Lemma add_items_get (items : list (option str * yaml_item)) (k : str) :
  forall d,
  dict_get (fold_left add_item items d) k
  = match last_opt (items_for k items) with
    | Some v => Some v
    | None => dict_get d k
    end.
Proof.
  induction items as [|[id v] items IH]; intros d; [reflexivity|].
  cbn [fold_left]. rewrite IH, items_for_cons. unfold add_item. cbn [fst snd].
  destruct id as [x|]; [|reflexivity].
  rewrite dict_get_set. destruct (eqb x k); [|reflexivity].
  rewrite last_opt_cons. destruct (last_opt (items_for k items)); reflexivity.
Qed.

Lemma dict_set_keys {V} (d : dict V) (k : str) (v : V) (x : str) :
  In x (map fst (dict_set d k v)) -> x = k \/ In x (map fst d).
Proof.
  induction d as [|[k0 v0] d IH]; simpl.
  - intros [E|[]]. left. congruence.
  - destruct (eqb k0 k); simpl; [tauto|].
    intros [E|H]; [tauto|]. destruct (IH H); tauto.
Qed.

Lemma dict_set_nodup {V} (d : dict V) (k : str) (v : V) :
  NoDup (map fst d) -> NoDup (map fst (dict_set d k v)).
Proof.
  induction d as [|[k0 v0] d IH]; simpl; intros H.
  - repeat constructor. intros [].
  - inversion H as [|? ? Hni Hnd]; subst.
    destruct (eqb k0 k) eqn:E; simpl; [constructor; assumption|].
    constructor; [|apply IH, Hnd].
    intros Hi. apply dict_set_keys in Hi. destruct Hi as [Hi|Hi];
      [|contradiction].
    subst k0. rewrite eqb_refl in E. discriminate.
Qed.

Lemma add_items_nodup (items : list (option str * yaml_item)) :
  forall d, NoDup (map fst d) -> NoDup (map fst (fold_left add_item items d)).
Proof.
  induction items as [|[[id|] v] items IH]; intros d H; simpl;
    [exact H | | apply IH, H].
  apply IH. unfold add_item. simpl. apply dict_set_nodup, H.
Qed.

End YamlFacts.

(** X13. [load_yaml_data] keeps, for each id, the last item that carries
    it, over all the files in the order they are read; items without an
    id, files that do not parse and files that hold no list add nothing;
    and no id occurs twice in what it returns. *)
Theorem load_yaml_data_last_wins (files : list yaml_doc) :
  (forall k, dict_get (load_yaml_data files) k
             = last_opt (items_for k (all_items files)))
  /\ NoDup (map fst (load_yaml_data files)).
Proof.
  rewrite YamlFacts.load_yaml_data_eq. split.
  - intros k. rewrite YamlFacts.add_items_get.
    destruct (last_opt _); reflexivity.
  - apply YamlFacts.add_items_nodup. constructor.
Qed.

(** X14. The text of a node is its own line, then the texts of its
    children in order, each line ended by a line break and none
    indented; the text of a sequence of records is the texts of the
    records one after the other. *)
Theorem serialize_is_preorder (n : node) (rs rs' : list node) :
  serialize_record n ++ [LF]
  = header n ++ [LF] ++ write_records (children n)
  /\ write_records (n :: rs)
     = header n ++ [LF] ++ write_records (children n) ++ write_records rs
  /\ write_records (rs ++ rs') = write_records rs ++ write_records rs'.
Proof.
  split; [apply ForestFacts.serialize_record_lf|]. split.
  - change (n :: rs) with ([n] ++ rs).
    rewrite ForestFacts.write_records_app, ForestFacts.write_records_one.
    rewrite <- app_assoc. reflexivity.
  - apply ForestFacts.write_records_app.
Qed.


Lemma merge_loop_frame_witness :
  nth_error
    (merge_loop (fun _ => fresh0) [(L1, springfield_item)]
       [Node 0 (lit "HEAD") [] None [Node 1 (lit "CHAR") (lit "UTF-8") None []];
        record_one_abbr]
       [(L1, 1%nat)])
    0
  = Some (Node 0 (lit "HEAD") [] None
            [Node 1 (lit "CHAR") (lit "UTF-8") None []]).
Proof.
  apply (proj2 (merge_loop_frame (fun _ => fresh0) [(L1, springfield_item)]
                  [Node 0 (lit "HEAD") [] None
                     [Node 1 (lit "CHAR") (lit "UTF-8") None []];
                   record_one_abbr]
                  [(L1, 1%nat)]) 0%nat _ eq_refl).
  intros y [<-|[]]. vm_compute. discriminate.
Defined.

Lemma created_record_read_back_witness :
  parse_gedcom_lines
    [header (create_new_record fresh0 L1 springfield_item) ++ [LF]]
  = Ok ([Node 0 T_LOC [] (Some ([AT] ++ L1 ++ [AT])) []],
        [(strip_chr AT L1, O)]).
Proof.
  apply (proj1 (created_record_read_back fresh0 L1 springfield_item
                  ltac:(vm_compute; intuition discriminate))).
Defined.

(* ================================================================== *)
(** ** Reading back a forest *)

Module ReadFacts.

Import StrFacts LineFacts TextFacts ForestFacts ShapeFacts.

Lemma node_induction (P : node -> Prop) :
  (forall l t v x cs, Forall P cs -> P (Node l t v x cs)) ->
  forall n, P n.
Proof.
  intros H. fix IH 1. intros [l t v x cs]. apply H.
  induction cs as [|c cs IHcs]; constructor; [apply IH | exact IHcs].
Qed.

Lemma flatten_eq (n : node) : flatten n = n :: flat_map flatten (children n).
Proof. destruct n; reflexivity. Qed.

Lemma levels_ok_eq (n : node) :
  levels_ok n
  = forallb (fun c => level n <? level c) (children n)
    && nonincreasing (map level (children n))
    && forallb levels_ok (children n).
Proof. destruct n; reflexivity. Qed.

(** *** The text of a forest, node by node *)

Lemma render_token_of (n : node) : render (token_of n) = header n ++ [LF].
Proof. destruct n; reflexivity. Qed.

Lemma write_list_flatten (rs : list node) :
  Forall (fun n => write_records [n]
                   = concat (map render (map token_of (flatten n)))) rs ->
  write_records rs = concat (map render (map token_of (flat_map flatten rs))).
Proof.
  induction 1 as [|r rs Hr _ IH]; [reflexivity|].
  change (r :: rs) with ([r] ++ rs).
  rewrite write_records_app, IH, Hr. cbn [flat_map app].
  rewrite !map_app, concat_app. reflexivity.
Qed.

Lemma write_one_flatten (n : node) :
  write_records [n] = concat (map render (map token_of (flatten n))).
Proof.
  induction n as [l t v x cs IHcs] using node_induction.
  rewrite write_records_one, flatten_eq. cbn [children map concat].
  rewrite render_token_of, (write_list_flatten cs IHcs), <- app_assoc.
  reflexivity.
Qed.

Lemma write_flatten (rs : list node) :
  write_records rs = concat (map render (map token_of (flat_map flatten rs))).
Proof.
  apply write_list_flatten, Forall_forall. intros n _.
  apply write_one_flatten.
Qed.

(** *** Appending the children one after the other *)

Lemma with_children_twice (n : node) (a b : list node) :
  with_children (with_children n a) b = with_children n b.
Proof. reflexivity. Qed.

Lemma append_child_after (c n : node) (p : path) :
  forall rs, rightmost p rs ->
  append_at (p ++ [length (kids p rs)]) c (append_at p n rs)
  = append_at p (with_children n (children n ++ [c])) rs.
Proof.
  induction p as [|i p IH]; intros rs Hr.
  - simpl. rewrite alter_last. reflexivity.
  - simpl in Hr. destruct Hr as (cs0 & m & -> & -> & Hr).
    cbn [app kids append_at]. rewrite nth_error_last, !alter_last.
    f_equal. f_equal. cbn [children with_children].
    rewrite (IH _ Hr). reflexivity.
Qed.

(** *** The stack while a subtree is read *)

Lemma pop_while_over (lvl : Z) (top rest : list (Z * path)) :
  Forall (fun e => lvl <= fst e) top ->
  pop_while lvl (top ++ rest) = pop_while lvl rest.
Proof.
  induction 1 as [|[l p] top Hl _ IH]; simpl; [reflexivity|].
  simpl in Hl. destruct (Z.geb_spec l lvl); [exact IH | lia].
Qed.

Lemma pop_while_stop (lvl l : Z) (p : path) (rest : list (Z * path)) :
  l < lvl -> pop_while lvl ((l, p) :: rest) = (l, p) :: rest.
Proof. intros H. simpl. destruct (Z.geb_spec l lvl); [lia | reflexivity]. Qed.

Lemma nonincreasing_cons (a : Z) (ls : list Z) :
  nonincreasing (a :: ls) = true ->
  Forall (fun b => b <= a) ls /\ nonincreasing ls = true.
Proof.
  revert a. induction ls as [|b ls IH]; intros a H.
  - split; [constructor | reflexivity].
  - cbn [nonincreasing] in H. apply andb_true_iff in H. destruct H as [Hb H].
    apply Z.leb_le in Hb. split; [|exact H].
    constructor; [exact Hb|]. destruct (IH b H) as [Hl _].
    eapply Forall_impl; [|exact Hl]. intros c Hc. simpl in Hc. lia.
Qed.

Section Children.

Variables (l : Z) (tg v : str) (x : option str).
Variables (p : path) (rs0 : list node) (rest : list (Z * path)).
Hypothesis Hp : rightmost p rs0.
Hypothesis Hl : 0 <= l.

Local Abbreviation p' := (p ++ [length (kids p rs0)]).

Lemma attach_children (cs : list node) :
  Forall attaches cs ->
  forall done s top,
    invariant s ->
    all_records s = append_at p (Node l tg v x done) rs0 ->
    stack s = top ++ (l, p') :: rest ->
    Forall (fun e => l < fst e) top ->
    Forall (fun e => Forall (fun c => level c <= fst e) cs) top ->
    forallb (fun c => l <? level c) cs = true ->
    nonincreasing (map level cs) = true ->
    forallb levels_ok cs = true ->
    let s' := fold_left place (map token_of (flat_map flatten cs)) s in
    all_records s' = append_at p (Node l tg v x (done ++ cs)) rs0
    /\ id_map s' = id_map s
    /\ exists top', stack s' = top' ++ (l, p') :: rest
                    /\ Forall (fun e => l < fst e) top'.
Proof.
  induction 1 as [|c cs Hc _ IH];
    intros done s top Hinv Hrec Hstk Htop Hbound Hlev Hni Hok.
  - simpl. rewrite app_nil_r. split; [exact Hrec|]. split; [reflexivity|].
    exists top. split; assumption.
  - cbn [flat_map]. rewrite map_app, fold_left_app.
    cbn [forallb map] in Hlev, Hni, Hok.
    apply andb_true_iff in Hlev. destruct Hlev as [Hlc Hlev].
    apply andb_true_iff in Hok. destruct Hok as [Hokc Hok].
    apply Z.ltb_lt in Hlc.
    destruct (nonincreasing_cons _ _ Hni) as [Hle Hni'].
    assert (Hpop : pop_while (level c) (stack s) = (l, p') :: rest).
    { rewrite Hstk, pop_while_over.
      - apply pop_while_stop, Hlc.
      - eapply Forall_impl; [|exact Hbound]. intros e He.
        inversion He; subst. assumption. }
    destruct (Hc s l p' rest Hinv Hokc Hlc Hl Hpop)
      as (Hr1 & Hm1 & top1 & Hs1 & Ht1).
    set (s1 := fold_left place (map token_of (flatten c)) s) in *.
    assert (Hinv1 : invariant s1) by (apply run_invariant, Hinv).
    assert (Hrec1 : all_records s1
                    = append_at p (Node l tg v x (done ++ [c])) rs0).
    { rewrite Hr1, Hrec.
      rewrite (append_child_after c _ p rs0 Hp). reflexivity. }
    destruct (IH (done ++ [c]) s1 top1 Hinv1 Hrec1 Hs1)
      as (Hr2 & Hm2 & top2 & Hs2 & Ht2); try assumption.
    + eapply Forall_impl; [|exact Ht1]. intros e He. simpl in He.
      apply Z.lt_le_trans with (level c); assumption.
    + eapply Forall_impl; [|exact Ht1]. intros e He. simpl in He.
      rewrite Forall_map in Hle.
      eapply Forall_impl; [|exact Hle]. intros c' Hc'. simpl in Hc'.
      apply Z.le_trans with (level c); assumption.
    + rewrite <- app_assoc in Hr2. split; [exact Hr2|].
      split; [congruence|]. exists top2. split; assumption.
Qed.

End Children.

Lemma place_child (s : pstate) (t : node) (lp : Z) (p : path)
  (st' : list (Z * path)) :
  level t <> 0 ->
  pop_while (level t) (stack s) = (lp, p) :: st' ->
  place s (token_of t)
  = PState (append_at p (with_children t []) (all_records s)) (id_map s)
      ((level t, p ++ [length (kids p (all_records s))]) :: (lp, p) :: st').
Proof.
  intros Hl Hpop. unfold place, is_garbage. simpl.
  destruct (Z.eqb_spec (level t) 0) as [E|_]; [contradiction|].
  simpl. rewrite Hpop. reflexivity.
Qed.

Lemma tree_attaches (t : node) : attaches t.
Proof.
  induction t as [l tg v x cs IHcs] using node_induction.
  intros s lp p st' Hinv Hok Hlt Hlp Hpop. simpl level in *.
  rewrite flatten_eq. cbn [map fold_left children].
  rewrite (place_child s (Node l tg v x cs) lp p st')
    by (simpl; first [lia | exact Hpop]).
  change (with_children (Node l tg v x cs) []) with (Node l tg v x []).
  cbn [level].
  rewrite levels_ok_eq in Hok. simpl in Hok.
  apply andb_true_iff in Hok. destruct Hok as [Hok Hokc].
  apply andb_true_iff in Hok. destruct Hok as [Hlev Hni].
  pose proof (stack_ok_pop (all_records s) l (stack s) Hinv) as Hk.
  rewrite Hpop in Hk. simpl in Hk. destruct Hk as (Hr & Hpre & Hstk).
  set (s1 := PState (append_at p (Node l tg v x []) (all_records s))
               (id_map s)
               ((l, p ++ [length (kids p (all_records s))]) :: (lp, p) :: st')).
  assert (Hinv1 : invariant s1).
  { replace s1 with (place s (token_of (Node l tg v x cs))).
    - apply place_invariant, Hinv.
    - rewrite (place_child s (Node l tg v x cs) lp p st')
        by (simpl; first [lia | exact Hpop]).
      reflexivity. }
  destruct (attach_children l tg v x p (all_records s) ((lp, p) :: st')
              Hr ltac:(lia) cs IHcs [] s1 [] Hinv1 eq_refl eq_refl
              (Forall_nil _) (Forall_nil _) Hlev Hni Hokc)
    as (Hr2 & Hm2 & top2 & Hs2 & Ht2).
  simpl app in Hr2.
  split; [exact Hr2|]. split; [exact Hm2|].
  exists (top2 ++ [(l, p ++ [length (kids p (all_records s))])]).
  rewrite <- app_assoc. split; [exact Hs2|].
  apply Forall_app. split.
  - eapply Forall_impl; [|exact Ht2]. intros e He. simpl in He.
    apply Z.lt_le_incl, He.
  - constructor; [simpl; lia | constructor].
Qed.

(** *** Reading the records *)

Lemma read_records (rs : list node) :
  forall s, invariant s ->
  Forall (fun r => level r = 0 /\ is_garbage (token_of r) = false) rs ->
  forallb levels_ok rs = true ->
  all_records (fold_left place (map token_of (flat_map flatten rs)) s)
  = all_records s ++ rs.
Proof.
  induction rs as [|r rs IH]; intros s Hinv Hz Hok.
  - simpl. rewrite app_nil_r. reflexivity.
  - inversion Hz as [|? ? [Hl Hg] Hz']; subst.
    cbn [forallb] in Hok. apply andb_true_iff in Hok.
    destruct Hok as [Hokr Hok].
    cbn [flat_map]. rewrite map_app, fold_left_app.
    destruct r as [l tg v x cs]. simpl in Hl. subst l.
    rewrite flatten_eq. cbn [map fold_left children].
    set (s1 := place s (token_of (Node 0 tg v x cs))).
    assert (Hinv1 : invariant s1) by (apply place_invariant, Hinv).
    assert (Hs1 : all_records s1 = append_at [] (Node 0 tg v x []) (all_records s)
                  /\ stack s1 = [] ++ (0, [] ++ [length (kids [] (all_records s))])
                                   :: []).
    { unfold s1, place. rewrite Hg. simpl. split; reflexivity. }
    destruct Hs1 as [Hrec1 Hstk1].
    rewrite levels_ok_eq in Hokr. simpl in Hokr.
    apply andb_true_iff in Hokr. destruct Hokr as [Hokr Hokc].
    apply andb_true_iff in Hokr. destruct Hokr as [Hlev Hni].
    assert (Hall : Forall attaches cs).
    { apply Forall_forall. intros c _. apply tree_attaches. }
    destruct (attach_children 0 tg v x [] (all_records s) [] I ltac:(lia)
                cs Hall [] s1 [] Hinv1 Hrec1 Hstk1
                (Forall_nil _) (Forall_nil _) Hlev Hni Hokc)
      as (Hr2 & _).
    set (s2 := fold_left place (map token_of (flat_map flatten cs)) s1) in *.
    rewrite (IH s2); try assumption.
    + rewrite Hr2. simpl. rewrite <- app_assoc. reflexivity.
    + apply run_invariant, Hinv1.
Qed.

Lemma read_back (rs : list node) :
  readable rs ->
  exists idm,
    parse_gedcom (Some (write_records rs)) = Ok (rs, idm)
    /\ forall k, dict_get idm k = last_keyed k 0 rs.
Proof.
  intros (Hz & Hok & Hgood).
  unfold parse_gedcom, parse_gedcom_lines.
  rewrite write_flatten.
  assert (Hg : Forall good_token (map token_of (flat_map flatten rs))).
  { apply Forall_map. exact Hgood. }
  rewrite (read_written_lines _ Hg), parse_loop_tokens.
  assert (Htok : tokens (map render (map token_of (flat_map flatten rs)))
                 = Ok (map token_of (flat_map flatten rs)))
    by (apply tokens_rendered, Hg).
  rewrite Htok. simpl.
  pose proof (read_records rs (PState [] [] []) I Hz Hok) as Hr.
  simpl in Hr.
  pose proof (fold_index (map token_of (flat_map flatten rs))
                (PState [] [] []) (Forall_nil _) (fun k => eq_refl)) as Hi.
  set (s := fold_left place (map token_of (flat_map flatten rs))
              (PState [] [] [])) in *.
  exists (id_map s). rewrite <- Hr. split; [reflexivity | exact Hi].
Qed.

End ReadFacts.

(** X15. Reading is the inverse of writing on a readable forest: when
    every record has level 0 and is not discarded as garbage, every
    child has a level above its parent's and at most the level of the
    child before it, and every node's own line reads back as the node's
    fields, the parser applied to the written text returns the very same
    forest, with the index of its _LOC records. *)
Theorem read_back_written (rs : list node) :
  readable rs ->
  exists idm,
    parse_gedcom (Some (write_records rs)) = Ok (rs, idm)
    /\ forall k, dict_get idm k = last_keyed k 0 rs.
Proof. apply ReadFacts.read_back. Qed.

(* ================================================================== *)
(** ** Lines that read back: the nodes the merger builds *)

Module CleanFacts.

Import StrFacts IntFacts LineFacts TextFacts ForestFacts ShapeFacts ReadFacts.

Lemma nobreakb_spec (s : str) : nobreakb s = true -> nobreak s.
Proof.
  unfold nobreakb, nobreak. intros H. apply Forall_forall. intros c Hc.
  rewrite forallb_forall in H. specialize (H c Hc).
  apply negb_true_iff, orb_false_iff in H. destruct H as [H1 H2].
  split; apply chr_eqb_neq; assumption.
Qed.

Lemma good_token_check (t : token) :
  nobreakb (header (node_of t)) = true ->
  tokenize (header (node_of t) ++ [LF]) = Ok (Some t) ->
  good_token t.
Proof. intros H1 H2. split; [apply nobreakb_spec, H1 | exact H2]. Qed.

Lemma nobreak_sp : nobreak [SP].
Proof.
  constructor; [|constructor]. split; intros E; vm_compute in E; discriminate.
Qed.

Lemma nobreak_level (l : Z) : nobreak (str_of_int l).
Proof.
  apply numeric_Forall; [|apply str_of_int_numeric].
  intros c Hc. apply numeric_plain in Hc. tauto.
Qed.

Lemma rev_nonempty {A} (l : list A) : l <> [] -> rev l <> [].
Proof.
  intros H E. apply H. apply (f_equal (@rev A)) in E.
  rewrite rev_involutive in E. exact E.
Qed.

(** A line "level tag" or "level tag value" reads back. *)
Lemma good_plain (l : Z) (tg v : str) :
  tg <> [] -> ~ In SP tg -> headok isspace (rev tg) ->
  startswith tg AT && endswith tg AT = false ->
  nobreak tg -> clean_value v ->
  good_token (Token l None tg v).
Proof.
  intros Hne Hsp Hend Hat Hnb [Hnv Hev].
  set (L := str_of_int l).
  assert (HL : headok isspace L)
    by apply (numeric_trimmed _ (str_of_int_numeric l)).
  assert (HLne : L <> []) by apply str_of_int_nonempty.
  assert (Hi : int L = Some l) by apply int_str_of_int.
  assert (HLsp : ~ In SP L) by apply str_of_int_nosp.
  destruct v as [|c v'].
  - assert (Hh : header (node_of (Token l None tg [])) = L ++ SP :: tg).
    { unfold header, node_of. simpl. reflexivity. }
    split.
    + rewrite Hh. apply Forall_app. split; [apply nobreak_level|].
      constructor; [|exact Hnb]. split; intros E; vm_compute in E; discriminate.
    + assert (Hs : strip (header (node_of (Token l None tg [])) ++ [LF])
                   = L ++ SP :: tg).
      { rewrite Hh. unfold strip. rewrite strip_by_app by reflexivity.
        apply strip_by_id. split.
        - apply headok_app; assumption.
        - rewrite rev_app_distr. simpl. rewrite <- app_assoc.
          apply headok_app; [apply rev_nonempty, Hne | exact Hend]. }
      rewrite (tokenize_stripped _ _ Hs) by (destruct L; discriminate).
      rewrite (split_app 1 L tg HLsp). cbn [split].
      rewrite (ParserFacts.cut_nosp tg Hsp).
      unfold tok_of_parts. cbn [nth length]. rewrite Hi.
      change ((1 <? 2)%nat) with true. cbn [andb]. rewrite Hat.
      reflexivity.
  - set (v := c :: v') in *.
    assert (Hh : header (node_of (Token l None tg v))
                 = L ++ SP :: (tg ++ SP :: v)).
    { unfold header, node_of, v. simpl. reflexivity. }
    split.
    + rewrite Hh. apply Forall_app. split; [apply nobreak_level|].
      constructor; [split; intros E; vm_compute in E; discriminate|].
      apply Forall_app. split; [exact Hnb|].
      constructor; [split; intros E; vm_compute in E; discriminate|exact Hnv].
    + assert (Hs : strip (header (node_of (Token l None tg v)) ++ [LF])
                   = L ++ SP :: (tg ++ SP :: v)).
      { rewrite Hh. unfold strip. rewrite strip_by_app by reflexivity.
        apply strip_by_id. split.
        - apply headok_app; assumption.
        - rewrite !rev_app_distr. simpl. rewrite rev_app_distr. simpl.
          rewrite <- !app_assoc.
          rewrite app_assoc. apply headok_app; [|exact Hev].
          intros E. apply app_eq_nil in E. destruct E; discriminate. }
      rewrite (tokenize_stripped _ _ Hs) by (destruct L; discriminate).
      rewrite (split_app 1 L _ HLsp), (split_app 0 tg v Hsp).
      unfold tok_of_parts. cbn [nth length split]. rewrite Hi.
      change ((1 <? 3)%nat) with true. cbn [andb]. rewrite Hat.
      reflexivity.
Qed.

Lemma good_known (l : Z) (tg v : str) :
  In tg known_tags -> clean_value v -> good_token (Token l None tg v).
Proof.
  intros Hin Hv.
  assert (H : tg <> [] /\ ~ In SP tg /\ headok isspace (rev tg)
              /\ startswith tg AT && endswith tg AT = false /\ nobreak tg).
  { unfold known_tags in Hin. simpl in Hin.
    repeat (destruct Hin as [<- | Hin];
            [ repeat split; try discriminate;
              [ vm_compute; intuition discriminate
              | apply nobreakb_spec; reflexivity ] | ]).
    destruct Hin. }
  destruct H as (H1 & H2 & H3 & H4 & H5). apply good_plain; assumption.
Qed.

Ltac known :=
  unfold known_tags; simpl; repeat (first [left; reflexivity | right]).

Lemma clean_empty : clean_value [].
Proof. split; [constructor | exact I]. Qed.

(** The line of a record made for an id reads back. *)
Lemma good_loc (x : str) :
  ~ In SP x -> nobreak x ->
  good_token (Token 0 (Some ([AT] ++ x ++ [AT])) T_LOC []).
Proof.
  intros Hsp Hnb.
  assert (Hh : header (node_of (Token 0 (Some ([AT] ++ x ++ [AT])) T_LOC []))
               = loc_line x) by reflexivity.
  split.
  - rewrite Hh. unfold loc_line. apply Forall_app. split.
    + apply nobreakb_spec. reflexivity.
    + apply Forall_app. split; [|apply nobreakb_spec; reflexivity].
      constructor; [split; intros E; vm_compute in E; discriminate|].
      apply Forall_app. split; [exact Hnb|].
      constructor; [split; intros E; vm_compute in E; discriminate|constructor].
  - rewrite Hh. apply (ReadBack.loc_line_token x Hsp).
Qed.

End CleanFacts.

Lemma read_back_written_witness :
  readable small_forest
  /\ exists idm,
       parse_gedcom (Some (write_records small_forest))
       = Ok (small_forest, idm)
       /\ forall k, dict_get idm k = last_keyed k 0 small_forest.
Proof.
  assert (H : readable small_forest).
  { split; [|split].
    - repeat constructor.
    - reflexivity.
    - repeat (constructor;
              [apply CleanFacts.good_token_check; reflexivity|]).
      constructor. }
  split; [exact H | apply (read_back_written small_forest H)].
Defined.

(* ================================================================== *)
(** ** Running [main] again on what it wrote *)

Module RerunFacts.

Import StrFacts MergeMore MainFacts ReadBack CleanFacts.

Lemma created_key (fr : fresh) (x : str) (item : yaml_item) :
  clean_id x -> key_of (create_new_record fr x item) = Some x.
Proof.
  intros (_ & _ & Ht). rewrite created_shape. unfold key_of.
  cbn [tag xref_id]. rewrite eqb_refl. cbn [app truthy andb].
  change (AT :: x ++ [AT]) with ([AT] ++ x ++ [AT]).
  rewrite strip_chr_wrapped. unfold strip_chr.
  rewrite (strip_by_id _ _ Ht). reflexivity.
Qed.

Lemma nonincreasing_const (l : Z) (cs : list node) :
  Forall (fun c => level c = l) cs -> nonincreasing (map level cs) = true.
Proof.
  induction 1 as [|a cs Ha Hcs IH]; [reflexivity|].
  destruct Hcs as [|b cs' Hb Hcs']; [reflexivity|].
  cbn [map nonincreasing] in *. rewrite Ha, Hb, Z.leb_refl.
  rewrite Hb in IH. exact IH.
Qed.

Lemma levels_children (l l' : Z) (tg v : str) (x : option str)
  (cs : list node) :
  l < l' ->
  Forall (fun c => level c = l' /\ levels_ok c = true) cs ->
  levels_ok (Node l tg v x cs) = true.
Proof.
  intros Hl H. cbn [levels_ok]. rewrite !andb_true_iff. repeat split.
  - apply forallb_forall. intros c Hc. rewrite Forall_forall in H.
    destruct (H c Hc) as [E _]. rewrite E. apply Z.ltb_lt, Hl.
  - apply (nonincreasing_const l'). revert H. apply Forall_impl. tauto.
  - apply forallb_forall. intros c Hc. rewrite Forall_forall in H.
    apply (H c Hc).
Qed.

Lemma created_levels (fr : fresh) (x : str) (item : yaml_item) :
  levels_ok (create_new_record fr x item) = true.
Proof.
  rewrite created_shape. apply (levels_children 0 1); [lia|].
  apply Forall_app; split; [|apply Forall_app; split].
  - repeat constructor.
  - apply Forall_forall. intros c Hc. apply in_map_iff in Hc.
    destruct Hc as (n & <- & _). unfold name_child.
    destruct (n_period n); split; reflexivity.
  - unfold Merge.merged_links. destruct (parents item) as [ps|];
      [|constructor].
    apply Forall_flat_map, Forall_forall. intros p _. unfold loc_nodes.
    destruct (p_id p) as [[|c pid]|]; try constructor; [|constructor].
    destruct (p_period p); split; reflexivity.
Qed.

Lemma clean_wrapped (x : str) : nobreak x -> clean_value ([AT] ++ x ++ [AT]).
Proof.
  intros H. split.
  - constructor; [split; intros E; vm_compute in E; discriminate|].
    apply Forall_app. split; [exact H|].
    constructor; [split; intros E; vm_compute in E; discriminate|constructor].
  - cbn [app]. cbn [rev]. rewrite rev_app_distr. reflexivity.
Qed.

Lemma created_tokens (fr : fresh) (x : str) (item : yaml_item) :
  clean_id x -> clean_item item -> clean_fresh fr ->
  Forall (fun n => good_token (token_of n))
         (flatten (create_new_record fr x item)).
Proof.
  intros (Hsp & Hnb & _) (Hns & Hps) (Hu & Hd & Ht).
  rewrite created_shape. cbn [flatten]. constructor.
  - apply (good_loc x Hsp Hnb).
  - rewrite !flat_map_app.
    apply Forall_app; split; [|apply Forall_app; split].
    + cbn [flat_map flatten create_chan_node app].
      repeat (apply Forall_cons;
              [apply good_known; [known | auto using clean_empty]|]).
      apply Forall_nil.
    + apply Forall_flat_map, Forall_forall. intros c Hc.
      apply in_map_iff in Hc. destruct Hc as (n & <- & Hn).
      rewrite Forall_forall in Hns. destruct (Hns n Hn) as [Hv Hp].
      unfold name_child. cbn [flatten Merge.opt_node app]. constructor.
      * apply good_known; [known | exact Hv].
      * destruct (n_period n) as [d|]; cbn; [|constructor].
        constructor; [|constructor].
        apply good_known; [known | exact Hp].
    + unfold Merge.merged_links. destruct (parents item) as [ps|];
        [|constructor].
      apply Forall_flat_map, Forall_forall. intros c Hc.
      apply in_flat_map in Hc. destruct Hc as (p & Hp & Hc).
      rewrite Forall_forall in Hps. destruct (Hps p Hp) as [Hi Hper].
      unfold loc_nodes in Hc.
      destruct (p_id p) as [[|a pid]|]; [destruct Hc | | destruct Hc].
      destruct Hc as [<-|[]]. cbn [flatten]. constructor.
      * apply good_known; [known | apply (clean_wrapped _ Hi)].
      * destruct (p_period p) as [d|]; cbn; [|constructor].
        constructor; [|constructor].
        apply good_known; [known | exact Hper].
Qed.

Lemma new_records_Forall (P : node -> Prop) (src : nat -> fresh)
  (ys : list (str * yaml_item)) :
  (forall k e, In e ys -> P (create_new_record (src k) (fst e) (snd e))) ->
  forall k, Forall P (new_records src k ys).
Proof.
  induction ys as [|[y it] ys IH]; intros H k; [constructor|].
  cbn [new_records]. constructor.
  - apply (H k (y, it)). left. reflexivity.
  - apply IH. intros k' e He. apply H. right. exact He.
Qed.

Lemma first_readable (src : nat -> fresh) (ys : list (str * yaml_item)) :
  Forall (fun e => clean_id (fst e) /\ clean_item (snd e)) ys ->
  (forall k, clean_fresh (src k)) ->
  readable (first_records src ys).
Proof.
  intros Hys Hsrc. rewrite Forall_forall in Hys. unfold first_records.
  split; [|split].
  - apply Forall_app. split; [|repeat constructor].
    apply new_records_Forall. intros k e He. rewrite created_shape.
    split; reflexivity.
  - rewrite forallb_app. apply andb_true_iff. split; [|reflexivity].
    apply forallb_forall. apply Forall_forall.
    apply new_records_Forall. intros k e He. apply created_levels.
  - rewrite flat_map_app. apply Forall_app. split.
    + apply Forall_flat_map. apply new_records_Forall. intros k e He.
      destruct (Hys e He) as [Hi Hit]. apply created_tokens; auto.
    + cbn. constructor; [|constructor].
      apply good_known; [known | apply clean_empty].
Qed.

Lemma last_keyed_absent (src : nat -> fresh) (id : str)
  (ys : list (str * yaml_item)) :
  forall k i0,
  ~ In id (map fst ys) -> Forall (fun e => clean_id (fst e)) ys ->
  last_keyed id i0 (new_records src k ys ++ [trailer]) = None.
Proof.
  induction ys as [|[y it] ys IH]; intros k i0 Hn Hc; [reflexivity|].
  inversion Hc as [|e l He Hl]; subst. cbn [fst] in He.
  cbn [new_records app last_keyed].
  rewrite IH; [|intros Hin; apply Hn; right; exact Hin | exact Hl].
  rewrite (created_key _ _ _ He).
  destruct (eqb y id) eqn:E; [|reflexivity].
  apply eqb_eq in E. exfalso. apply Hn. left. exact E.
Qed.

Lemma last_keyed_new (src : nat -> fresh) (id : str) (item : yaml_item)
  (ys : list (str * yaml_item)) :
  forall k i0,
  NoDup (map fst ys) -> Forall (fun e => clean_id (fst e)) ys ->
  In (id, item) ys ->
  exists j,
    last_keyed id i0 (new_records src k ys ++ [trailer]) = Some (i0 + j)%nat
    /\ nth_error (new_records src k ys ++ [trailer]) j
       = Some (create_new_record (src (k + j)%nat) id item).
Proof.
  induction ys as [|[y it] ys IH]; intros k i0 Hnd Hc Hin; [destruct Hin|].
  inversion Hc as [|e l He Hl]; subst. cbn [fst] in He.
  inversion Hnd as [|a l Hny Hnd']; subst.
  cbn [new_records app last_keyed].
  destruct Hin as [E | Hin].
  - inversion E; subst. exists O.
    rewrite (last_keyed_absent src id ys (S k) (S i0) Hny Hl).
    rewrite (created_key _ _ _ He), eqb_refl, !Nat.add_0_r.
    split; reflexivity.
  - destruct (IH (S k) (S i0) Hnd' Hl Hin) as (j & H1 & H2).
    exists (S j). rewrite H1. split.
    + f_equal. lia.
    + cbn [nth_error]. rewrite H2. do 3 f_equal. lia.
Qed.

Lemma alter_fixed {A} (g : A -> A) (l : list A) :
  forall i x, nth_error l i = Some x -> g x = x -> alter g i l = l.
Proof.
  induction l as [|a l IH]; intros [|i] x H Hg; try discriminate.
  - injection H as ->. cbn [alter]. rewrite Hg. reflexivity.
  - cbn [alter]. rewrite (IH i x H Hg). reflexivity.
Qed.

(** The loop changes nothing when every external record is indexed at a
    record that merging leaves as it is. *)
Lemma loop_fixed (src : nat -> fresh) (R : list node) (idm : dict nat)
  (ys : list (str * yaml_item)) :
  (forall id item, In (id, item) ys ->
     exists i r, dict_get idm id = Some i /\ nth_error R i = Some r
                 /\ forall fr, update_record fr r item = r) ->
  forall k,
  fold_left (merge_item src) ys (R, idm, k) = (R, idm, (k + length ys)%nat).
Proof.
  induction ys as [|[y it] ys IH]; intros H k.
  - cbn [fold_left length]. rewrite Nat.add_0_r. reflexivity.
  - cbn [fold_left length].
    assert (E : merge_item src (R, idm, k) (y, it) = (R, idm, S k)).
    { destruct (H y it (or_introl eq_refl)) as (i & r & Hd & Hn & Hu).
      unfold merge_item. rewrite Hd.
      rewrite (alter_fixed _ R i r Hn (Hu (src k))). reflexivity. }
    rewrite E, IH; [f_equal; lia|].
    intros id item Hin. apply H. right. exact Hin.
Qed.

Lemma find_index_first {A} (f : A -> bool) (a b : list A) (x : A) :
  Forall (fun y => f y = false) a -> f x = true ->
  find_index f (a ++ x :: b) = Some (length a).
Proof.
  induction 1 as [|y a Hy Ha IH]; intros Hx; cbn [app find_index length].
  - rewrite Hx. reflexivity.
  - rewrite Hy, (IH Hx). reflexivity.
Qed.

Lemma move_trlr_last (rs : list node) (t : node) :
  Forall (fun r => eqb (tag r) TRLR = false) rs ->
  eqb (tag t) TRLR = true ->
  move_trlr (rs ++ [t]) = rs ++ [t].
Proof.
  intros Hrs Ht. unfold move_trlr.
  rewrite (find_index_first _ rs [] t Hrs Ht).
  rewrite nth_error_middle, remove_at_middle, app_nil_r. reflexivity.
Qed.

Lemma first_run (src : nat -> fresh) (ys : list (str * yaml_item)) :
  NoDup (map fst ys) ->
  main None ys src = Ok (write_records (first_records src ys)).
Proof.
  intros Hnd. unfold main.
  rewrite (main_records_eq None ys src [] [] eq_refl). cbn [bind].
  unfold merge_loop.
  rewrite (merge_loop_new src ys [] [] O Hnd) by (intros; reflexivity).
  cbn [app]. unfold move_trlr.
  rewrite (find_index_all_false _ _ (new_records_tags src ys O)).
  reflexivity.
Qed.

Lemma rerun (src src' : nat -> fresh) (ys : list (str * yaml_item)) :
  clean_data ys -> (forall k, clean_fresh (src k)) ->
  main (Some (write_records (first_records src ys))) ys src'
  = Ok (write_records (first_records src ys)).
Proof.
  intros [Hnd Hys] Hsrc.
  destruct (ReadFacts.read_back _ (first_readable src ys Hys Hsrc))
    as (idm & Hp & Hi).
  assert (Hids : Forall (fun e => clean_id (fst e)) ys).
  { revert Hys. apply Forall_impl. tauto. }
  unfold main. rewrite (main_records_eq _ ys src' _ idm Hp). cbn [bind].
  unfold merge_loop. rewrite loop_fixed.
  - cbn [fst]. unfold first_records.
    rewrite move_trlr_last;
      [reflexivity | apply new_records_tags | reflexivity].
  - intros id item Hin.
    destruct (last_keyed_new src id item ys O O Hnd Hids Hin)
      as (j & H1 & H2).
    exists j, (create_new_record (src j) id item). repeat split.
    + rewrite Hi. exact H1.
    + exact H2.
    + intros fr. unfold create_new_record. apply update_again.
Qed.

End RerunFacts.

(** X16. Starting without a file, [main] writes one new record per
    external record and a trailer; run again on that text, with any
    other draws of identifiers and time, it writes the same text.  The
    external ids are distinct, have no space or line break and neither
    start nor end with "@"; the values taken from the external records
    and the drawn strings have no line break and do not end with white
    space. *)
Theorem main_rerun_fixed (src src' : nat -> fresh)
  (yaml_data : list (str * yaml_item)) :
  clean_data yaml_data -> (forall k, clean_fresh (src k)) ->
  let text := write_records (first_records src yaml_data) in
  main None yaml_data src = Ok text
  /\ main (Some text) yaml_data src' = Ok text.
Proof.
  intros Hd Hsrc text. split.
  - apply RerunFacts.first_run, Hd.
  - apply RerunFacts.rerun; assumption.
Qed.

Lemma main_rerun_fixed_witness :
  let text := write_records (first_records (fun _ => fresh0) sample_data) in
  main None sample_data (fun _ => fresh0) = Ok text
  /\ main (Some text) sample_data (fun _ => fresh0) = Ok text.
Proof.
  apply (main_rerun_fixed (fun _ => fresh0) (fun _ => fresh0) sample_data).
  - split.
    + repeat constructor; simpl; intuition discriminate.
    + repeat constructor; simpl;
        try (intuition discriminate);
        try (apply CleanFacts.nobreakb_spec; reflexivity).
  - intros _. repeat split;
      try (apply CleanFacts.nobreakb_spec; reflexivity).
Defined.
